(** * Two-door angular-momentum simulation: the physics core of
      [src/lib/physics.ts], embedded and verified.

    The TypeScript source computes on the JavaScript type [number], that is on
    IEEE 754 binary64 values.  The embedding is written once, over an
    interface [Number] that lists the operators the source uses
    ([+ - * /], [<], [>=], [Math.min], [Math.max], [Math.pow(_, 2)],
    [Math.PI], numeric literals) and the two tests in which its properties
    are stated ([===], [Number.isFinite]), and is then read at two
    instances:

    - [Binary64]: the IEEE 754 double-precision semantics ([spec_float] with
      precision 53 and maximal exponent 1024, round to nearest even), which is
      what the program really runs on, and which evaluates inside Rocq;
    - [Exact]: the real numbers, the idealisation in which rounding and
      overflow are absent, used for the order-theoretic properties.

    Properties that only depend on the control flow are proved once, for every
    model of the interface that satisfies the comparison laws [NumberLaws].

    Around the core, the development embeds what the components make of it:
    the page [pages/Index.tsx] with its frame loop, its handlers and its
    history of recorded points ([Index]), the sliders of [ParameterControls],
    the orbit controls of [ThreeScene] and the angle readout of
    [DataDisplay]. *)

From Stdlib Require Import ZArith QArith Bool List Sorted Lia.
From Stdlib Require Import Reals Qreals Lra.
From Stdlib Require Import Floats.
Import ListNotations.

Set Implicit Arguments.

(** ** The JavaScript [number] interface *)

Class Number (num : Type) : Type := {
  (** a numeric literal of the source text, given by its decimal value *)
  lit : Q -> num;
  add : num -> num -> num;
  sub : num -> num -> num;
  mul : num -> num -> num;
  div : num -> num -> num;
  (** [a < b] and [a >= b] *)
  lt : num -> num -> bool;
  ge : num -> num -> bool;
  (** [a === b] *)
  strict_eq : num -> num -> bool;
  (** [Number.isFinite(a)] *)
  isFinite : num -> bool;
  Math_min : num -> num -> num;
  Math_max : num -> num -> num;
  (** [Math.pow(a, 2)] *)
  Math_pow2 : num -> num;
  Math_PI : num
}.

Declare Scope num_scope.
Delimit Scope num_scope with num.
Notation "# q" := (lit q%Q) (at level 1, format "# q") : num_scope.
Infix "+" := add : num_scope.
Infix "-" := sub : num_scope.
Infix "*" := mul : num_scope.
Infix "/" := div : num_scope.
Infix "<?" := lt : num_scope.
Infix ">=?" := ge (at level 70) : num_scope.
Infix "===" := strict_eq (at level 70) : num_scope.

(** ** Data model *)

Record SimulationParams (num : Type) : Type := {
  doorMass : num;
  doorWidth : num;
  slidingMass : num;
  initialRadius : num;
  finalRadius : num;
  slideDuration : num;
  initialAngularVelocity : num
}.

Inductive Phase : Type := idle | phase1 | phase2.

Module DoorA.
Record t (num : Type) : Type := mk {
  angle : num;
  angularVelocity : num;
  momentOfInertia : num;
  angularMomentum : num;
  massRadius : num
}.
End DoorA.

Module DoorB.
Record t (num : Type) : Type := mk {
  angle : num;
  angularVelocity : num;
  momentOfInertia : num;
  angularMomentum : num
}.
End DoorB.

Record SimulationState (num : Type) : Type := {
  time : num;
  isRunning : bool;
  phase : Phase;
  doorA : DoorA.t num;
  doorB : DoorB.t num
}.

(** ** The formulas and the state machine of [physics.ts] *)

Section Physics.
Context {num : Type} `{Number num}.
Local Open Scope num_scope.

(** I_d = (1/3) * M * W^2 *)
Definition calculateDoorMomentOfInertia (mass width : num) : num :=
  (#1 / #3) * mass * width * width.

(** I_total = I_d + m * r^2 *)
Definition calculateTotalMomentOfInertia
    (doorMomentOfInertia slidingMass radius : num) : num :=
  doorMomentOfInertia + slidingMass * radius * radius.

(** omega = L / I *)
Definition calculateAngularVelocity (angularMomentum momentOfInertia : num) : num :=
  angularMomentum / momentOfInertia.

(** The easing expression of [interpolateRadius], before it is clamped. *)
Definition eased (progress : num) : num :=
  if progress <? #0.5
  then #2 * progress * progress
  else #1 - Math_pow2 (#(-2) * progress + #2) / #2.

Definition interpolateRadius (initialRadius finalRadius progress : num) : num :=
  initialRadius
  + (finalRadius - initialRadius) * Math_min #1 (Math_max #0 (eased progress)).

Definition MAX_DOOR_ANGLE : num := Math_PI / #2.

Definition initializeState (params : SimulationParams num) : SimulationState num :=
  let doorMomentOfInertia :=
    calculateDoorMomentOfInertia (doorMass params) (doorWidth params) in
  let initialTotalMomentOfInertia :=
    calculateTotalMomentOfInertia
      doorMomentOfInertia (slidingMass params) (initialRadius params) in
  let angularMomentum :=
    initialTotalMomentOfInertia * initialAngularVelocity params in
  {| time := #0;
     isRunning := false;
     phase := idle;
     doorA := {| DoorA.angle := #0;
                 DoorA.angularVelocity := initialAngularVelocity params;
                 DoorA.momentOfInertia := initialTotalMomentOfInertia;
                 DoorA.angularMomentum := angularMomentum;
                 DoorA.massRadius := initialRadius params |};
     doorB := {| DoorB.angle := #0;
                 DoorB.angularVelocity := initialAngularVelocity params;
                 DoorB.momentOfInertia := doorMomentOfInertia;
                 DoorB.angularMomentum :=
                   doorMomentOfInertia * initialAngularVelocity params |} |}.

Definition updateState (state : SimulationState num)
    (params : SimulationParams num) (deltaTime : num) : SimulationState num :=
  if negb (isRunning state) then state
  else if (DoorA.angle (doorA state) >=? MAX_DOOR_ANGLE)
          && (DoorB.angle (doorB state) >=? MAX_DOOR_ANGLE)
  then
    {| time := time state;
       isRunning := false;
       phase := phase2;
       doorA := {| DoorA.angle := DoorA.angle (doorA state);
                   DoorA.angularVelocity := #0;
                   DoorA.momentOfInertia := DoorA.momentOfInertia (doorA state);
                   DoorA.angularMomentum := DoorA.angularMomentum (doorA state);
                   DoorA.massRadius := DoorA.massRadius (doorA state) |};
       doorB := {| DoorB.angle := DoorB.angle (doorB state);
                   DoorB.angularVelocity := #0;
                   DoorB.momentOfInertia := DoorB.momentOfInertia (doorB state);
                   DoorB.angularMomentum := DoorB.angularMomentum (doorB state) |} |}
  else
    let newTime := time state + deltaTime in
    let doorMomentOfInertia :=
      calculateDoorMomentOfInertia (doorMass params) (doorWidth params) in
    let slideProgress := Math_min #1 (newTime / slideDuration params) in
    let newMassRadius :=
      interpolateRadius (initialRadius params) (finalRadius params) slideProgress in
    let newMomentOfInertiaA :=
      calculateTotalMomentOfInertia
        doorMomentOfInertia (slidingMass params) newMassRadius in
    let newAngularVelocityA :=
      if DoorA.angle (doorA state) >=? MAX_DOOR_ANGLE
      then #0
      else calculateAngularVelocity
             (DoorA.angularMomentum (doorA state)) newMomentOfInertiaA in
    let newAngleA :=
      if DoorA.angle (doorA state) >=? MAX_DOOR_ANGLE
      then MAX_DOOR_ANGLE
      else Math_min MAX_DOOR_ANGLE
             (DoorA.angle (doorA state) + newAngularVelocityA * deltaTime) in
    let newAngularVelocityB :=
      if DoorB.angle (doorB state) >=? MAX_DOOR_ANGLE
      then #0
      else DoorB.angularVelocity (doorB state) in
    let newAngleB :=
      if DoorB.angle (doorB state) >=? MAX_DOOR_ANGLE
      then MAX_DOOR_ANGLE
      else Math_min MAX_DOOR_ANGLE
             (DoorB.angle (doorB state) + newAngularVelocityB * deltaTime) in
    let phase :=
      if (newAngleA >=? MAX_DOOR_ANGLE) && (newAngleB >=? MAX_DOOR_ANGLE)
      then phase2 else phase1 in
    {| time := newTime;
       isRunning := isRunning state;
       phase := phase;
       doorA := {| DoorA.angle := newAngleA;
                   DoorA.angularVelocity := newAngularVelocityA;
                   DoorA.momentOfInertia := newMomentOfInertiaA;
                   DoorA.angularMomentum := DoorA.angularMomentum (doorA state);
                   DoorA.massRadius := newMassRadius |};
       doorB := {| DoorB.angle := newAngleB;
                   DoorB.angularVelocity := newAngularVelocityB;
                   DoorB.momentOfInertia := DoorB.momentOfInertia (doorB state);
                   DoorB.angularMomentum := DoorB.angularMomentum (doorB state) |} |}.

(** The host's controls ([handleStart] and [handlePause] of [Index.tsx]). *)
Definition handleStart (prev : SimulationState num) : SimulationState num :=
  {| time := time prev; isRunning := true; phase := phase1;
     doorA := doorA prev; doorB := doorB prev |}.

Definition handlePause (prev : SimulationState num) : SimulationState num :=
  {| time := time prev; isRunning := false; phase := phase prev;
     doorA := doorA prev; doorB := doorB prev |}.

(** Successive [updateState] calls, one per element of [deltas]. *)
Fixpoint advance_all (state : SimulationState num)
    (params : SimulationParams num) (deltas : list num) : SimulationState num :=
  match deltas with
  | [] => state
  | deltaTime :: rest => advance_all (updateState state params deltaTime) params rest
  end.

(** The state after the first [n] calls of such a run. *)
Definition after_calls (state : SimulationState num)
    (params : SimulationParams num) (deltas : list num) (n : nat)
  : SimulationState num :=
  advance_all state params (firstn n deltas).
End Physics.

(** ** IEEE 754 binary64 *)

Module Binary64.
Definition prec : Z := 53.
Definition emax : Z := 1024.

Definition of_Z (z : Z) : spec_float := binary_normalize prec emax z 0 false.

(** A decimal literal denotes the double nearest to its value; numerator and
    denominator of the literals of the source are exactly representable, so
    the correctly rounded quotient is that double. *)
Definition of_Q (q : Q) : spec_float :=
  SFdiv prec emax (of_Z (Qnum q)) (of_Z (Zpos (Qden q))).

(** [Math.min]: NaN if an argument is NaN, and -0 is below +0. *)
Definition min (a b : spec_float) : spec_float :=
  match SFcompare a b with
  | None => S754_nan
  | Some Lt => a
  | Some Gt => b
  | Some Eq =>
      match a, b with
      | S754_zero sa, S754_zero sb => S754_zero (sa || sb)
      | _, _ => b
      end
  end.

(** [Math.max]: NaN if an argument is NaN, and +0 is above -0. *)
Definition max (a b : spec_float) : spec_float :=
  match SFcompare a b with
  | None => S754_nan
  | Some Gt => a
  | Some Lt => b
  | Some Eq =>
      match a, b with
      | S754_zero sa, S754_zero sb => S754_zero (sa && sb)
      | _, _ => b
      end
  end.

Definition is_finite (a : spec_float) : bool :=
  match a with
  | S754_zero _ | S754_finite _ _ _ => true
  | S754_infinity _ | S754_nan => false
  end.

(** [Math.PI] is the double 0x1.921fb54442d18p+1. *)
Definition PI : spec_float := S754_finite false 7074237752028440 (-51).

#[global] Instance number : Number spec_float := {
  lit := of_Q;
  add := SFadd prec emax;
  sub := SFsub prec emax;
  mul := SFmul prec emax;
  div := SFdiv prec emax;
  lt := SFltb;
  ge := fun a b => SFleb b a;
  strict_eq := SFeqb;
  isFinite := is_finite;
  Math_min := min;
  Math_max := max;
  (** the engines return [x * x] for the exponent 2 *)
  Math_pow2 := fun a => SFmul prec emax a a;
  Math_PI := PI
}.
End Binary64.

(** ** Exact real arithmetic *)

Module Exact.
Definition ltb (a b : R) : bool := if Rlt_dec a b then true else false.
Definition geb (a b : R) : bool := if Rge_dec a b then true else false.
Definition eqb (a b : R) : bool := if Req_dec_T a b then true else false.

#[global] Instance number : Number R := {
  lit := Q2R;
  add := Rplus;
  sub := Rminus;
  mul := Rmult;
  div := Rdiv;
  lt := ltb;
  ge := geb;
  strict_eq := eqb;
  isFinite := fun _ => true;
  Math_min := Rmin;
  Math_max := Rmax;
  Math_pow2 := fun a => Rmult a a;
  Math_PI := Rtrigo1.PI
}.
End Exact.

(** The default parameters of the source. *)
Definition defaultParams {num : Type} `{Number num} : SimulationParams num :=
  {| doorMass := lit 30;
     doorWidth := lit 1.0;
     slidingMass := lit 8;
     initialRadius := lit 0.1;
     finalRadius := lit 0.9;
     slideDuration := lit 1.2;
     initialAngularVelocity := lit 2.0 |}.

(** ** Laws shared by the two number models

    The control-flow arguments below use nothing about [number] except these
    facts about comparisons, [Math.min] and products with the literal [0].
    They hold for IEEE doubles (NaN, infinities and signed zeros included) and
    for the real numbers. *)

Class NumberLaws (num : Type) `{Number num} : Prop := {
  lt_not_ge : forall a b : num, lt a b = true -> ge a b = false;
  ge_MAX_DOOR_ANGLE : ge MAX_DOOR_ANGLE MAX_DOOR_ANGLE = true;
  zero_below_MAX_DOOR_ANGLE :
    ge (lit 0) MAX_DOOR_ANGLE = false /\ lt MAX_DOOR_ANGLE (lit 0) = false;
  min_not_above : forall a b : num, lt a (Math_min a b) = false;
  mul_zero_finite :
    forall a : num, isFinite a = true -> strict_eq (mul a (lit 0)) (lit 0) = true;
  mul_zero_differs :
    forall a l : num,
      strict_eq l (lit 0) = false -> strict_eq (mul a (lit 0)) l = false
}.
Arguments NumberLaws num {_}.

(** ** Runs, reachable states and the formula of the specification *)

Section Runs.
Context {num : Type} `{Number num}.
Local Open Scope num_scope.

(** The state in which the host starts a run: the initial state, started. *)
Definition started (params : SimulationParams num) : SimulationState num :=
  handleStart (initializeState params).

(** States the host can reach for [params]: it starts, pauses and calls
    [updateState] with elapsed times accepted by [ok]. *)
Inductive reachable (ok : num -> Prop) (params : SimulationParams num)
  : SimulationState num -> Prop :=
| reach_init : reachable ok params (initializeState params)
| reach_start : forall s, reachable ok params s -> reachable ok params (handleStart s)
| reach_pause : forall s, reachable ok params s -> reachable ok params (handlePause s)
| reach_update : forall s dt,
    reachable ok params s -> ok dt -> reachable ok params (updateState s params dt).

Definition any_delta : num -> Prop := fun _ => True.

(** clamp(x, 0, 1), written as the source writes it. *)
Definition clamp01 (x : num) : num := Math_min #1 (Math_max #0 x).

(** The radius as the specification words it: the progress is clamped to
    [0,1], the ease blend is applied, and the eased value is clamped again. *)
Definition interpolateRadius_spec (r1 r2 progress : num) : num :=
  r1 + (r2 - r1) * clamp01 (eased (clamp01 progress)).

(** Door B keeps [initialAngularVelocity] while its angle is not at the
    ceiling, and a stopped run has it at 0. *)
Definition doorB_velocity_inv (params : SimulationParams num)
    (s : SimulationState num) : Prop :=
  ((DoorB.angle (doorB s) >=? MAX_DOOR_ANGLE) = false ->
   DoorB.angularVelocity (doorB s) = initialAngularVelocity params)
  /\ (isRunning s = true \/ DoorB.angularVelocity (doorB s) = #0).

(** Door A's stored fields are related by the operation that wrote them, as
    long as its angle is not at the ceiling. *)
Definition doorA_consistent (s : SimulationState num) : Prop :=
  DoorA.angularMomentum (doorA s)
  = DoorA.momentOfInertia (doorA s) * DoorA.angularVelocity (doorA s)
  \/ (DoorA.angle (doorA s) >=? MAX_DOOR_ANGLE) = true
  \/ DoorA.angularVelocity (doorA s)
     = DoorA.angularMomentum (doorA s) / DoorA.momentOfInertia (doorA s).

(** A stopped state with both doors at the ceiling, as the guard leaves it. *)
Definition completed (s : SimulationState num) : Prop :=
  isRunning s = false
  /\ phase s = phase2
  /\ (DoorA.angle (doorA s) >=? MAX_DOOR_ANGLE) = true
  /\ (DoorB.angle (doorB s) >=? MAX_DOOR_ANGLE) = true
  /\ DoorA.angularVelocity (doorA s) = #0
  /\ DoorB.angularVelocity (doorB s) = #0.

(** What holds of the phase along a run from the started initial state. *)
Definition phase_inv (s : SimulationState num) : Prop :=
  phase s <> idle
  /\ (phase s = phase2 ->
      (DoorA.angle (doorA s) >=? MAX_DOOR_ANGLE) = true
      /\ (DoorB.angle (doorB s) >=? MAX_DOOR_ANGLE) = true).
End Runs.

Module Params.
Local Open Scope R_scope.
(** The ranges the data model documents for the parameters. *)
Record valid (p : SimulationParams R) : Prop := {
  doorMass_pos : 0 < doorMass p;
  doorWidth_pos : 0 < doorWidth p;
  slidingMass_nonneg : 0 <= slidingMass p;
  initialRadius_nonneg : 0 <= initialRadius p;
  finalRadius_above : initialRadius p < finalRadius p;
  slideDuration_pos : 0 < slideDuration p;
  initialAngularVelocity_pos : 0 < initialAngularVelocity p
}.

Definition nonneg_delta : R -> Prop := fun dt => 0 <= dt.

(** The progress of the slide at a given time. *)
Definition slideProgress (params : SimulationParams R) (t : R) : R :=
  Rmin 1 (t / slideDuration params).

(** What every reachable state satisfies. *)
Record inv (params : SimulationParams R) (s : SimulationState R) : Prop := {
  inv_time : 0 <= time s;
  inv_angleA : DoorA.angle (doorA s) <= MAX_DOOR_ANGLE;
  inv_angleB : DoorB.angle (doorB s) <= MAX_DOOR_ANGLE;
  inv_velocityB : 0 <= DoorB.angularVelocity (doorB s);
  inv_momentumA : 0 < DoorA.angularMomentum (doorA s);
  inv_radius :
    DoorA.massRadius (doorA s)
    = interpolateRadius (initialRadius params) (finalRadius params)
        (slideProgress params (time s))
}.
End Params.

(** ** The host page ([pages/Index.tsx]) *)

(** [Math.floor], which only the host uses. *)
Class HostNumber (num : Type) `{Number num} : Type := {
  Math_floor : num -> num
}.
Arguments HostNumber num {_}.

(** What the host and the scene use of the order: [a < a] never holds, and
    [Math.max(lo, Math.min(hi, x))] is neither below [lo] nor above [hi]. *)
Class OrderLaws (num : Type) `{Number num} : Prop := {
  lt_irrefl : forall a : num, lt a a = false;
  clamp_within :
    forall lo hi x : num,
      lt lo hi = true ->
      lt (Math_max lo (Math_min hi x)) lo = false
      /\ lt hi (Math_max lo (Math_min hi x)) = false
}.
Arguments OrderLaws num {_}.

Module Binary64Host.
Import Binary64.

(** [Math.floor] on doubles: values with a non-negative exponent are
    integers already; otherwise the mantissa is shifted down (an arithmetic
    shift rounds towards minus infinity); zeros, infinities and NaN are
    returned as they are. *)
Definition floor (a : spec_float) : spec_float :=
  match a with
  | S754_finite s m e =>
      if (0 <=? e)%Z then a
      else
        let z := Z.shiftr (cond_Zopp s (Zpos m)) (- e) in
        if (z =? 0)%Z then S754_zero false else of_Z z
  | _ => a
  end.

#[global] Instance host : HostNumber spec_float := {
  Math_floor := floor
}.
End Binary64Host.

Module ExactHost.
#[global] Instance host : HostNumber R := {
  Math_floor := fun x => IZR (Zfloor x)
}.
End ExactHost.

Module DataPoint.
Record t (num : Type) : Type := mk {
  time : num;
  doorA_omega : num;
  doorB_omega : num;
  doorA_I : num;
  doorB_I : num;
  doorA_L : num;
  doorB_L : num
}.
End DataPoint.

Module Index.
Section Host.
Context {num : Type} `{HostNumber num}.
Local Open Scope num_scope.

(** The component's state: the three [useState] cells and [lastTimeRef]. *)
Record t : Type := mk {
  params : SimulationParams num;
  state : SimulationState num;
  dataHistory : list (DataPoint.t num);
  lastTimeRef : num
}.

(** The data point a state is recorded as. *)
Definition pointOf (s : SimulationState num) : DataPoint.t num :=
  {| DataPoint.time := time s;
     DataPoint.doorA_omega := DoorA.angularVelocity (doorA s);
     DataPoint.doorB_omega := DoorB.angularVelocity (doorB s);
     DataPoint.doorA_I := DoorA.momentOfInertia (doorA s);
     DataPoint.doorB_I := DoorB.momentOfInertia (doorB s);
     DataPoint.doorA_L := DoorA.angularMomentum (doorA s);
     DataPoint.doorB_L := DoorB.angularMomentum (doorB s) |}.

(** The single point the history starts from, for parameters [p]. *)
Definition firstPoint (p : SimulationParams num) : DataPoint.t num :=
  {| DataPoint.time := #0;
     DataPoint.doorA_omega := initialAngularVelocity p;
     DataPoint.doorB_omega := initialAngularVelocity p;
     DataPoint.doorA_I := DoorA.momentOfInertia (doorA (initializeState p));
     DataPoint.doorB_I := DoorB.momentOfInertia (doorB (initializeState p));
     DataPoint.doorA_L := DoorA.angularMomentum (doorA (initializeState p));
     DataPoint.doorB_L := DoorB.angularMomentum (doorB (initializeState p)) |}.

(** The component as it is mounted. *)
Definition initial : t :=
  {| params := defaultParams;
     state := initializeState defaultParams;
     dataHistory := [firstPoint defaultParams];
     lastTimeRef := #0 |}.

(** [prev.slice(-n)]: the last [n] elements, all of them if there are fewer. *)
Definition slice_last {A : Type} (n : nat) (prev : list A) : list A :=
  skipn (length prev - n) prev.

(** One animation frame: the elapsed time since the last frame (0 on the
    first one), then the state update and the recording of a data point
    whenever the simulated time enters a new twentieth of a second. *)
Definition animate (h : t) (timestamp : num) : t :=
  let last := if lastTimeRef h === #0 then timestamp else lastTimeRef h in
  let deltaTime := (timestamp - last) / #1000 in
  let prevState := state h in
  if negb (isRunning prevState)
  then {| params := params h; state := prevState;
          dataHistory := dataHistory h; lastTimeRef := timestamp |}
  else
    let newState := updateState prevState (params h) deltaTime in
    {| params := params h;
       state := newState;
       dataHistory :=
         if Math_floor (time prevState * #20) <? Math_floor (time newState * #20)
         then slice_last 200 (dataHistory h) ++ [pointOf newState]
         else dataHistory h;
       lastTimeRef := timestamp |}.

Definition handleStart (h : t) : t :=
  {| params := params h; state := handleStart (state h);
     dataHistory := dataHistory h; lastTimeRef := lastTimeRef h |}.

Definition handlePause (h : t) : t :=
  {| params := params h; state := handlePause (state h);
     dataHistory := dataHistory h; lastTimeRef := lastTimeRef h |}.

(** [handleReset] reads the parameters of the render it was created in. *)
Definition handleReset (h : t) : t :=
  {| params := params h;
     state := initializeState (params h);
     dataHistory := [firstPoint (params h)];
     lastTimeRef := #0 |}.

(** [handleParamsChange] stores the new parameters and then calls the
    [handleReset] of the same render, whose [params] are still the old ones. *)
Definition handleParamsChange (h : t) (newParams : SimulationParams num) : t :=
  let reset := handleReset h in
  {| params := newParams; state := state reset;
     dataHistory := dataHistory reset; lastTimeRef := lastTimeRef reset |}.

(** The effect on [state.isRunning]: when a render finds the simulation
    running after it was not, [lastTimeRef] is cleared before the first frame
    is requested. *)
Definition startEffect (before after : t) : t :=
  if isRunning (state after) && negb (isRunning (state before))
  then {| params := params after; state := state after;
          dataHistory := dataHistory after; lastTimeRef := #0 |}
  else after.

(** What can happen to the mounted component. *)
Inductive event : Type :=
| Start
| Pause
| Reset
| ParamsChange (newParams : SimulationParams num)
| Frame (timestamp : num).

Definition dispatch (h : t) (e : event) : t :=
  match e with
  | Start => startEffect h (handleStart h)
  | Pause => handlePause h
  | Reset => handleReset h
  | ParamsChange newParams => handleParamsChange h newParams
  | Frame timestamp => animate h timestamp
  end.

Definition run (h : t) (events : list event) : t := fold_left dispatch events h.

(** Events that leave the parameters alone. *)
Definition keeps_params (e : event) : bool :=
  match e with
  | ParamsChange _ => false
  | _ => true
  end.

(** Events of a single session: no reset and no change of parameters. *)
Definition in_session (e : event) : bool :=
  match e with
  | ParamsChange _ | Reset => false
  | _ => true
  end.

(** The history holds between 1 and 201 points. *)
Definition history_bounded (h : t) : Prop :=
  (1 <= length (dataHistory h) <= 201)%nat.

(** Every recorded point carries the momenta, and door B's inertia, that the
    current state stores. *)
Definition chart_flat (h : t) : Prop :=
  forall pt, In pt (dataHistory h) ->
    DataPoint.doorA_L pt = DoorA.angularMomentum (doorA (state h))
    /\ DataPoint.doorB_L pt = DoorB.angularMomentum (doorB (state h))
    /\ DataPoint.doorB_I pt = DoorB.momentOfInertia (doorB (state h)).

(** What a session after a change of parameters keeps. *)
Definition stale (old newParams : SimulationParams num) (h : t) : Prop :=
  params h = newParams
  /\ DoorA.angularMomentum (doorA (state h))
     = DoorA.angularMomentum (doorA (initializeState old))
  /\ DoorB.angularMomentum (doorB (state h))
     = DoorB.angularMomentum (doorB (initializeState old)).
End Host.
Arguments t num : clear implicits.
Arguments event num : clear implicits.
End Index.

(** ** The parameter sliders ([ParameterControls]) *)

Module ParameterControls.

(** [keyof SimulationParams]. *)
Inductive key : Type :=
| doorMass_key
| doorWidth_key
| slidingMass_key
| initialRadius_key
| finalRadius_key
| slideDuration_key
| initialAngularVelocity_key.

Definition key_eqb (a b : key) : bool :=
  match a, b with
  | doorMass_key, doorMass_key
  | doorWidth_key, doorWidth_key
  | slidingMass_key, slidingMass_key
  | initialRadius_key, initialRadius_key
  | finalRadius_key, finalRadius_key
  | slideDuration_key, slideDuration_key
  | initialAngularVelocity_key, initialAngularVelocity_key => true
  | _, _ => false
  end.

Section Controls.
Context {num : Type} `{Number num}.
Local Open Scope num_scope.

(** [params[key]]. *)
Definition value_of (params : SimulationParams num) (k : key) : num :=
  match k with
  | doorMass_key => doorMass params
  | doorWidth_key => doorWidth params
  | slidingMass_key => slidingMass params
  | initialRadius_key => initialRadius params
  | finalRadius_key => finalRadius params
  | slideDuration_key => slideDuration params
  | initialAngularVelocity_key => initialAngularVelocity params
  end.

(** The object [updateParam] passes on: [{ ...params, [key]: value }]. *)
Definition updateParam (params : SimulationParams num) (k : key) (value : num)
  : SimulationParams num :=
  {| doorMass := if key_eqb k doorMass_key then value else doorMass params;
     doorWidth := if key_eqb k doorWidth_key then value else doorWidth params;
     slidingMass := if key_eqb k slidingMass_key then value else slidingMass params;
     initialRadius :=
       if key_eqb k initialRadius_key then value else initialRadius params;
     finalRadius := if key_eqb k finalRadius_key then value else finalRadius params;
     slideDuration :=
       if key_eqb k slideDuration_key then value else slideDuration params;
     initialAngularVelocity :=
       if key_eqb k initialAngularVelocity_key then value
       else initialAngularVelocity params |}.

Record control : Type := {
  control_key : key;
  min : num;
  max : num;
  step : num
}.

(** The seven sliders, in the order of the source. *)
Definition controls : list control :=
  [ {| control_key := doorMass_key; min := #10; max := #60; step := #1 |};
    {| control_key := doorWidth_key; min := #0.6; max := #1.4; step := #0.1 |};
    {| control_key := slidingMass_key; min := #1; max := #15; step := #0.5 |};
    {| control_key := initialRadius_key; min := #0.05; max := #0.3; step := #0.01 |};
    {| control_key := finalRadius_key; min := #0.4; max := #1.0; step := #0.05 |};
    {| control_key := initialAngularVelocity_key;
       min := #0.5; max := #4.0; step := #0.1 |};
    {| control_key := slideDuration_key; min := #0.5; max := #3.0; step := #0.1 |} ].
End Controls.
Arguments control num : clear implicits.

(** Every parameter lies within the range of its slider. *)
Definition within_sliders (params : SimulationParams R) : Prop :=
  Forall
    (fun c : control R =>
       (min c <= value_of params (control_key c) <= max c)%R)
    controls.
End ParameterControls.

(** ** The orbit controls of the scene ([ThreeScene]) *)

Module ThreeScene.
Section Orbit.
Context {num : Type} `{Number num}.
Local Open Scope num_scope.

(** The refs the mouse handlers work on. *)
Record orbit : Type := {
  isDragging : bool;
  previousMousePosition : num * num;
  cameraDistance : num;
  cameraAngleX : num;
  cameraAngleY : num
}.

Definition initial : orbit :=
  {| isDragging := false;
     previousMousePosition := (#0, #0);
     cameraDistance := #6;
     cameraAngleX := #0;
     cameraAngleY := #0.5 |}.

Definition handleMouseDown (o : orbit) (clientX clientY : num) : orbit :=
  {| isDragging := true;
     previousMousePosition := (clientX, clientY);
     cameraDistance := cameraDistance o;
     cameraAngleX := cameraAngleX o;
     cameraAngleY := cameraAngleY o |}.

Definition handleMouseMove (o : orbit) (clientX clientY : num) : orbit :=
  if negb (isDragging o) then o
  else
    let deltaX := clientX - fst (previousMousePosition o) in
    let deltaY := clientY - snd (previousMousePosition o) in
    {| isDragging := isDragging o;
       previousMousePosition := (clientX, clientY);
       cameraDistance := cameraDistance o;
       cameraAngleX := cameraAngleX o + deltaX * #0.01;
       cameraAngleY :=
         Math_max #0.1 (Math_min #1.4 (cameraAngleY o + deltaY * #0.01)) |}.

Definition handleMouseUp (o : orbit) : orbit :=
  {| isDragging := false;
     previousMousePosition := previousMousePosition o;
     cameraDistance := cameraDistance o;
     cameraAngleX := cameraAngleX o;
     cameraAngleY := cameraAngleY o |}.

Definition handleWheel (o : orbit) (deltaY : num) : orbit :=
  {| isDragging := isDragging o;
     previousMousePosition := previousMousePosition o;
     cameraDistance :=
       Math_max #3 (Math_min #15 (cameraDistance o + deltaY * #0.01));
     cameraAngleX := cameraAngleX o;
     cameraAngleY := cameraAngleY o |}.

(** The listeners of the canvas; [mouseleave] is bound to [handleMouseUp]. *)
Inductive event : Type :=
| mousedown (clientX clientY : num)
| mousemove (clientX clientY : num)
| mouseup
| mouseleave
| wheel (deltaY : num).

Definition dispatch (o : orbit) (e : event) : orbit :=
  match e with
  | mousedown x y => handleMouseDown o x y
  | mousemove x y => handleMouseMove o x y
  | mouseup | mouseleave => handleMouseUp o
  | wheel deltaY => handleWheel o deltaY
  end.

(** Neither below [lo] nor above [hi]. *)
Definition within (lo hi x : num) : Prop :=
  (x <? lo) = false /\ (hi <? x) = false.

Definition in_view (o : orbit) : Prop :=
  within #3 #15 (cameraDistance o) /\ within #0.1 #1.4 (cameraAngleY o).
End Orbit.
Arguments orbit num : clear implicits.
Arguments event num : clear implicits.

(** The bounds of the two clamps are ordered, and the camera starts between
    them. *)
Class OrbitLaws (num : Type) `{Number num} : Prop := {
  distance_bounds : lt (lit 3) (lit 15) = true;
  elevation_bounds : lt (lit 0.1) (lit 1.4) = true;
  initial_in_view : in_view initial
}.
Arguments OrbitLaws num {_}.
End ThreeScene.

(** ** The readouts ([DataDisplay]) *)

Module DataDisplay.
Import Exact.
Local Open Scope num_scope.

(** [x % y] on reals: [x] less the whole multiples of [y] that fit in it,
    counted towards zero, so that the result has the sign of [x]. *)
Definition remainder (x y : R) : R :=
  (x - y * IZR (if Rle_dec 0 (x / y) then Zfloor (x / y) else Zceil (x / y)))%R.

(** Door B's angle as it is shown: [state.doorB.angle % (2 * Math.PI)]. *)
Definition doorB_theta (s : SimulationState R) : R :=
  remainder (DoorB.angle (doorB s)) (#2 * Math_PI).
End DataDisplay.

(** A session of the host over the reals: the frame clock and the history. *)
Module Session.
Import Index.
Local Open Scope R_scope.

(** The twentieth of a second a simulated time falls in. *)
Definition bucket (t : R) : Z := Zfloor (t * 20).

(** The frame timestamps of [events] never go back, starting from [prev]. *)
Fixpoint well_timed (prev : R) (events : list (event R)) : Prop :=
  match events with
  | [] => True
  | Frame timestamp :: rest => prev <= timestamp /\ well_timed timestamp rest
  | _ :: rest => well_timed prev rest
  end.

(** The timestamp of the last frame of [events], [prev] if there is none. *)
Fixpoint last_frame (prev : R) (events : list (event R)) : R :=
  match events with
  | [] => prev
  | Frame timestamp :: rest => last_frame timestamp rest
  | _ :: rest => last_frame prev rest
  end.

(** What holds of the host between changes of parameters. *)
Record inv (p : SimulationParams R) (prev : R) (h : t R) : Prop := {
  inv_params : params h = p;
  inv_state : reachable Params.nonneg_delta p (state h);
  inv_clock : 0 <= lastTimeRef h <= prev;
  inv_moving :
    Forall (fun pt => 0 < DataPoint.doorA_omega pt) (dataHistory h);
  inv_sorted :
    StronglySorted
      (fun a b => (bucket (DataPoint.time a) < bucket (DataPoint.time b))%Z)
      (dataHistory h);
  inv_past :
    Forall (fun pt => (bucket (DataPoint.time pt) <= bucket (time (state h)))%Z)
      (dataHistory h)
}.
End Session.

Module Kinematics.
Local Open Scope R_scope.

(** Door A's inertia at a given radius of the sliding mass. *)
Definition inertiaA (params : SimulationParams R) (r : R) : R :=
  calculateTotalMomentOfInertia
    (calculateDoorMomentOfInertia (doorMass params) (doorWidth params))
    (slidingMass params) r.

(** What relates the two doors in every reachable state. *)
Record inv (params : SimulationParams R) (s : SimulationState R) : Prop := {
  inertiaA_of_radius :
    DoorA.momentOfInertia (doorA s) = inertiaA params (DoorA.massRadius (doorA s));
  momentumA_initial :
    DoorA.angularMomentum (doorA s)
    = inertiaA params (initialRadius params) * initialAngularVelocity params;
  velocityB_initial :
    DoorB.angle (doorB s) < MAX_DOOR_ANGLE ->
    DoorB.angularVelocity (doorB s) = initialAngularVelocity params;
  angleA_behind : DoorA.angle (doorA s) <= DoorB.angle (doorB s);
  velocityA_bounds :
    0 <= DoorA.angularVelocity (doorA s) <= initialAngularVelocity params
}.

(** The least angle either door gains in one call of length [dt]. *)
Definition least_gain (params : SimulationParams R) (dt : R) : R :=
  inertiaA params (initialRadius params) * initialAngularVelocity params
  / inertiaA params (finalRadius params) * dt.

(** The state in which a run ends: stopped, both doors at the ceiling. *)
Definition closed (s : SimulationState R) : Prop :=
  isRunning s = false
  /\ phase s = phase2
  /\ DoorA.angularVelocity (doorA s) = 0
  /\ DoorB.angularVelocity (doorB s) = 0
  /\ DoorA.angle (doorA s) = MAX_DOOR_ANGLE
  /\ DoorB.angle (doorB s) = MAX_DOOR_ANGLE.
End Kinematics.

(** Concrete binary64 inputs used to evaluate the program. *)
Module Sample.
Local Open Scope num_scope.

Definition tenth : spec_float := #0.1.

(** The default run: the started default state and [n] ticks of 0.1 s. *)
Definition default_run (n : nat) : SimulationState spec_float :=
  advance_all (started defaultParams) defaultParams (repeat tenth n).

(** The default parameters with the initial angular velocity set to 1.3. *)
Definition params_1_3 : SimulationParams spec_float :=
  {| doorMass := #30;
     doorWidth := #1.0;
     slidingMass := #8;
     initialRadius := #0.1;
     finalRadius := #0.9;
     slideDuration := #1.2;
     initialAngularVelocity := #1.3 |}.

(** Parameters whose mass slides inward, so that door A is the faster one. *)
Definition params_inward : SimulationParams spec_float :=
  {| doorMass := #30;
     doorWidth := #1.0;
     slidingMass := #8;
     initialRadius := #0.9;
     finalRadius := #0.1;
     slideDuration := #1.2;
     initialAngularVelocity := #2.0 |}.

Definition inward_run (n : nat) : SimulationState spec_float :=
  advance_all (started params_inward) params_inward (repeat tenth n).
End Sample.

Module Binary64Facts.
Import Binary64.

Lemma compare_cont_Eq_antisym (p q : positive) :
  Pos.compare_cont Eq q p = CompOpp (Pos.compare_cont Eq p q).
Proof. exact (Pos.compare_antisym p q). Qed.

Lemma SFcompare_antisym (a b : spec_float) :
  SFcompare b a = option_map CompOpp (SFcompare a b).
Proof.
  destruct a as [sa|sa| |sa ma ea], b as [sb|sb| |sb mb eb]; cbn;
    try reflexivity; try (destruct sa; reflexivity);
    try (destruct sb; reflexivity);
    try (destruct sa, sb; reflexivity).
  destruct sa, sb; cbn; try reflexivity;
    rewrite (Z.compare_antisym ea eb);
    destruct (ea ?= eb)%Z; cbn; try reflexivity;
    rewrite (compare_cont_Eq_antisym ma mb);
    destruct (Pos.compare_cont Eq ma mb); reflexivity.
Qed.

Lemma SFcompare_nan_r (a : spec_float) : SFcompare a S754_nan = None.
Proof. destruct a; reflexivity. Qed.

Lemma SFcompare_refl_not_Lt (a : spec_float) : SFcompare a a <> Some Lt.
Proof.
  intros E. pose proof (SFcompare_antisym a a) as A.
  rewrite E in A. discriminate A.
Qed.

Lemma SFltb_not_SFleb (a b : spec_float) : SFltb a b = true -> SFleb b a = false.
Proof.
  unfold SFltb, SFleb. rewrite (SFcompare_antisym a b).
  destruct (SFcompare a b) as [[ | | ]|]; cbn; congruence.
Qed.

Lemma SFltb_min (a b : spec_float) : SFltb a (min a b) = false.
Proof.
  unfold min. destruct (SFcompare a b) as [[ | | ]|] eqn:E.
  - assert (SFltb a b = false) as Hb by (unfold SFltb; now rewrite E).
    destruct a as [sa|sa| |sa ma ea]; try exact Hb.
    destruct b as [sb|sb| |sb mb eb]; exact Hb.
  - unfold SFltb. destruct (SFcompare a a) as [[ | | ]|] eqn:E'; try reflexivity.
    now apply SFcompare_refl_not_Lt in E'.
  - unfold SFltb. now rewrite E.
  - unfold SFltb. now rewrite SFcompare_nan_r.
Qed.

Lemma SFmul_zero_cases (a : spec_float) :
  SFmul prec emax a (of_Q 0) = S754_nan
  \/ exists s, SFmul prec emax a (of_Q 0) = S754_zero s.
Proof.
  change (of_Q 0) with (S754_zero false).
  destruct a; cbn; eauto.
Qed.

#[global] Instance laws : NumberLaws spec_float.
Proof.
  split.
  - intros a b. exact (SFltb_not_SFleb a b).
  - vm_compute. reflexivity.
  - vm_compute. split; reflexivity.
  - exact SFltb_min.
  - intros a Fa. cbn in *. change (of_Q 0) with (S754_zero false).
    destruct a; cbn in *; congruence.
  - intros a l Hl. cbn in *. revert Hl. change (of_Q 0) with (S754_zero false).
    destruct (SFmul_zero_cases a) as [E|[s E]];
      change (of_Q 0) with (S754_zero false) in E; rewrite E.
    + reflexivity.
    + destruct l as [sl|sl| |sl ml el]; cbn; try congruence;
        destruct sl; cbn; congruence.
Qed.
End Binary64Facts.

Module ExactFacts.
Import Exact.
Local Open Scope R_scope.

Lemma exact_lit_0 : lit 0 = 0.
Proof. cbn. unfold Q2R. cbn. lra. Qed.

#[global] Instance laws : NumberLaws R.
Proof.
  split.
  - intros a b. cbn. unfold ltb, geb.
    destruct (Rlt_dec a b), (Rge_dec a b); intros; try reflexivity; try discriminate; lra.
  - cbn. unfold geb. destruct (Rge_dec _ _) as [|n]; [reflexivity|].
    exfalso. apply n. apply Rge_refl.
  - pose proof PI_RGT_0.
    split; cbn; unfold geb, ltb, Q2R; cbn.
    + destruct (Rge_dec _ _); [exfalso; lra|reflexivity].
    + destruct (Rlt_dec _ _); [exfalso; lra|reflexivity].
  - intros a b. cbn. unfold ltb.
    destruct (Rlt_dec a (Rmin a b)) as [l|]; [|reflexivity].
    pose proof (Rmin_l a b). lra.
  - intros a _. rewrite exact_lit_0. cbn. unfold eqb.
    destruct (Req_dec_T (a * 0) 0) as [|n]; [reflexivity|]. exfalso; apply n; lra.
  - intros a l. rewrite exact_lit_0. cbn. unfold eqb.
    destruct (Req_dec_T l 0), (Req_dec_T (a * 0) l); intros; try reflexivity; try discriminate.
    exfalso. lra.
Qed.
End ExactFacts.

(** ** Runs *)

Section RunFacts.
Context {num : Type} `{Number num}.

Lemma advance_all_app (s : SimulationState num) params (xs ys : list num) :
  advance_all s params (xs ++ ys) = advance_all (advance_all s params xs) params ys.
Proof. revert s. induction xs as [|x xs IH]; intros s; cbn; [reflexivity|apply IH]. Qed.

Lemma advance_all_not_running (s : SimulationState num) params (xs : list num) :
  isRunning s = false -> advance_all s params xs = s.
Proof.
  intros Run. induction xs as [|x xs IH]; cbn; [reflexivity|].
  unfold updateState at 1. rewrite Run. exact IH.
Qed.
End RunFacts.

(** ** Properties of the state machine, for every number model *)

Section ControlFlow.
Context {num : Type} `{NumberLaws num}.
Local Open Scope num_scope.

Lemma updateState_not_running (state : SimulationState num) params dt :
  isRunning state = false -> updateState state params dt = state.
Proof. intros Run. unfold updateState. now rewrite Run. Qed.

Lemma updateState_momentum_A (state : SimulationState num) params dt :
  DoorA.angularMomentum (doorA (updateState state params dt))
  = DoorA.angularMomentum (doorA state).
Proof.
  unfold updateState.
  destruct (isRunning state); cbn; [|reflexivity].
  destruct (_ && _); reflexivity.
Qed.

Lemma updateState_momentum_B (state : SimulationState num) params dt :
  DoorB.angularMomentum (doorB (updateState state params dt))
  = DoorB.angularMomentum (doorB state).
Proof.
  unfold updateState.
  destruct (isRunning state); cbn; [|reflexivity].
  destruct (_ && _); reflexivity.
Qed.

Lemma advance_all_momentum (deltas : list num) :
  forall (state : SimulationState num) params,
    DoorA.angularMomentum (doorA (advance_all state params deltas))
    = DoorA.angularMomentum (doorA state)
    /\ DoorB.angularMomentum (doorB (advance_all state params deltas))
       = DoorB.angularMomentum (doorB state).
Proof.
  induction deltas as [|dt rest IH]; intros state params; cbn.
  - now split.
  - destruct (IH (updateState state params dt) params) as [IA IB].
    rewrite IA, IB, updateState_momentum_A, updateState_momentum_B. now split.
Qed.

Lemma reachable_momentum ok params (s : SimulationState num) :
  reachable ok params s ->
  DoorA.angularMomentum (doorA s)
  = DoorA.angularMomentum (doorA (initializeState params))
  /\ DoorB.angularMomentum (doorB s)
     = DoorB.angularMomentum (doorB (initializeState params)).
Proof.
  induction 1 as [|s _ IH|s _ IH|s dt _ IH _]; try exact IH.
  - now split.
  - now rewrite updateState_momentum_A, updateState_momentum_B.
Qed.

(** C1. Every [updateState] call returns both doors' [angularMomentum]
    unchanged; hence after any sequence of calls on the started initial
    state, and in any state the host can reach, they still have the values
    computed by [initializeState]. *)
Theorem angularMomentum_conserved :
  (forall (state : SimulationState num) params dt,
      DoorA.angularMomentum (doorA (updateState state params dt))
      = DoorA.angularMomentum (doorA state)
      /\ DoorB.angularMomentum (doorB (updateState state params dt))
         = DoorB.angularMomentum (doorB state))
  /\ (forall params (deltas : list num),
        let final := advance_all (started params) params deltas in
        DoorA.angularMomentum (doorA final)
        = DoorA.angularMomentum (doorA (initializeState params))
        /\ DoorB.angularMomentum (doorB final)
           = DoorB.angularMomentum (doorB (initializeState params)))
  /\ (forall params (s : SimulationState num),
        reachable any_delta params s ->
        DoorA.angularMomentum (doorA s)
        = DoorA.angularMomentum (doorA (initializeState params))
        /\ DoorB.angularMomentum (doorB s)
           = DoorB.angularMomentum (doorB (initializeState params))).
Proof.
  split; [|split].
  - intros state params dt. split.
    + apply updateState_momentum_A.
    + apply updateState_momentum_B.
  - intros params deltas final. subst final.
    exact (advance_all_momentum deltas (started params) params).
  - intros params s. apply reachable_momentum.
Qed.

(** C7. The initial state stores, for door A, the product of the stored
    moment of inertia and the initial angular velocity, and that moment of
    inertia is (1/3)*doorMass*doorWidth^2 + slidingMass*initialRadius^2. *)
Theorem initializeState_angularMomentum (params : SimulationParams num) :
  let s := initializeState params in
  DoorA.angularMomentum (doorA s)
  = DoorA.momentOfInertia (doorA s) * initialAngularVelocity params
  /\ DoorA.momentOfInertia (doorA s)
     = (#1 / #3) * doorMass params * doorWidth params * doorWidth params
       + slidingMass params * initialRadius params * initialRadius params.
Proof. split; reflexivity. Qed.

(** C5. On a running state whose two angles are already at or above
    MAX_DOOR_ANGLE, [updateState] returns the terminal snapshot: not
    running, phase2, both angular velocities 0, and every other field,
    [time] included, as in the input, whatever [deltaTime] is. *)
Theorem updateState_terminal_guard (state : SimulationState num) params dt :
  isRunning state = true ->
  (DoorA.angle (doorA state) >=? MAX_DOOR_ANGLE) = true ->
  (DoorB.angle (doorB state) >=? MAX_DOOR_ANGLE) = true ->
  updateState state params dt
  = {| time := time state;
       isRunning := false;
       phase := phase2;
       doorA := {| DoorA.angle := DoorA.angle (doorA state);
                   DoorA.angularVelocity := #0;
                   DoorA.momentOfInertia := DoorA.momentOfInertia (doorA state);
                   DoorA.angularMomentum := DoorA.angularMomentum (doorA state);
                   DoorA.massRadius := DoorA.massRadius (doorA state) |};
       doorB := {| DoorB.angle := DoorB.angle (doorB state);
                   DoorB.angularVelocity := #0;
                   DoorB.momentOfInertia := DoorB.momentOfInertia (doorB state);
                   DoorB.angularMomentum := DoorB.angularMomentum (doorB state) |} |}.
Proof.
  intros Run A B. unfold updateState. rewrite Run, A, B. reflexivity.
Qed.

(** *** The one-tick lag of the stop (C4) *)

Lemma guard_off_of_below (state : SimulationState num) :
  (DoorA.angle (doorA state) <? MAX_DOOR_ANGLE) = true
  \/ (DoorB.angle (doorB state) <? MAX_DOOR_ANGLE) = true ->
  (DoorA.angle (doorA state) >=? MAX_DOOR_ANGLE)
  && (DoorB.angle (doorB state) >=? MAX_DOOR_ANGLE) = false.
Proof.
  intros [A|B].
  - now rewrite (lt_not_ge _ _ A).
  - rewrite (lt_not_ge _ _ B). apply andb_false_r.
Qed.

(** C4. When [updateState] runs on a running state with a door still below
    MAX_DOOR_ANGLE and both returned angles are at the ceiling, the returned
    state is in phase2 and still running; any further call on it returns a
    state that is not running. *)
Theorem stop_lags_one_tick (state : SimulationState num) params dt :
  isRunning state = true ->
  (DoorA.angle (doorA state) <? MAX_DOOR_ANGLE) = true
  \/ (DoorB.angle (doorB state) <? MAX_DOOR_ANGLE) = true ->
  let next := updateState state params dt in
  (DoorA.angle (doorA next) >=? MAX_DOOR_ANGLE) = true ->
  (DoorB.angle (doorB next) >=? MAX_DOOR_ANGLE) = true ->
  phase next = phase2
  /\ isRunning next = true
  /\ forall params' dt', isRunning (updateState next params' dt') = false.
Proof.
  intros Run below next A B.
  assert (isRunning next = true /\ phase next = phase2) as [Rn Pn].
  { revert A B. subst next. unfold updateState.
    rewrite Run, (guard_off_of_below state below). cbn.
    intros A B. rewrite A, B. now split. }
  repeat split; trivial.
  intros params' dt'. unfold updateState. now rewrite Rn, A, B.
Qed.

(** *** Door B's angular velocity (C6) *)

Lemma doorB_velocity_inv_started params : doorB_velocity_inv params (started params).
Proof. split; cbn; auto. Qed.

Lemma doorB_velocity_inv_step params params' s dt :
  doorB_velocity_inv params s ->
  doorB_velocity_inv params (updateState s params' dt).
Proof.
  intros I. destruct (isRunning s) eqn:Run;
    [|now rewrite (updateState_not_running s params' dt Run)].
  destruct I as [Below Stop]. unfold updateState. rewrite Run. cbn.
  destruct (DoorA.angle (doorA s) >=? MAX_DOOR_ANGLE) eqn:A; cbn.
  - destruct (DoorB.angle (doorB s) >=? MAX_DOOR_ANGLE) eqn:B; cbn.
    + split; cbn; [congruence | now right].
    + split; cbn; [auto | now left].
  - split; cbn; [|now left].
    destruct (DoorB.angle (doorB s) >=? MAX_DOOR_ANGLE) eqn:B.
    + rewrite ge_MAX_DOOR_ANGLE. discriminate.
    + auto.
Qed.

Lemma doorB_velocity_inv_run params (deltas : list num) :
  forall s, doorB_velocity_inv params s ->
            doorB_velocity_inv params (advance_all s params deltas).
Proof.
  induction deltas as [|dt rest IH]; intros s I; cbn; [exact I|].
  apply IH. now apply doorB_velocity_inv_step.
Qed.

(** In the state returned by any call of a run, door B's angular velocity
    is [initialAngularVelocity] when the angle in the state the call received
    was not yet at MAX_DOOR_ANGLE, and it is 0, with the angle still at the
    ceiling, when the received angle was already there. *)
Lemma doorB_velocity_follows_received_angle
    (params : SimulationParams num) (earlier : list num) (dt : num) :
  let received := advance_all (started params) params earlier in
  let returned := updateState received params dt in
  ((DoorB.angle (doorB received) >=? MAX_DOOR_ANGLE) = false ->
   DoorB.angularVelocity (doorB returned) = initialAngularVelocity params)
  /\ ((DoorB.angle (doorB received) >=? MAX_DOOR_ANGLE) = true ->
      DoorB.angularVelocity (doorB returned) = #0
      /\ (DoorB.angle (doorB returned) >=? MAX_DOOR_ANGLE) = true).
Proof.
  intros received returned.
  pose proof (@doorB_velocity_inv_run params earlier _
                (doorB_velocity_inv_started params)) as [Below Stop].
  fold received in Below, Stop.
  subst returned. unfold updateState.
  destruct (isRunning received) eqn:Run; cbn.
  - destruct (DoorB.angle (doorB received) >=? MAX_DOOR_ANGLE) eqn:B.
    + split; [discriminate|intros _].
      destruct (DoorA.angle (doorA received) >=? MAX_DOOR_ANGLE); cbn.
      * now split.
      * split; [reflexivity | apply ge_MAX_DOOR_ANGLE].
    + rewrite andb_false_r. cbn. split; [auto|discriminate].
  - split; [exact Below|]. intros B.
    destruct Stop as [Stop|Stop]; [discriminate|now split].
Qed.

Lemma firstn_succ (deltas : list num) :
  forall n, (n < length deltas)%nat ->
    exists dt, firstn (S n) deltas = firstn n deltas ++ [dt].
Proof.
  induction deltas as [|d rest IH]; intros n L; cbn in L; [lia|].
  destruct n as [|n].
  - exists d. reflexivity.
  - destruct (IH n) as [dt E]; [lia|]. exists dt.
    change (firstn (S (S n)) (d :: rest)) with (d :: firstn (S n) rest).
    rewrite E. reflexivity.
Qed.

Lemma after_calls_succ (state : SimulationState num) params deltas n :
  (n < length deltas)%nat ->
  exists dt,
    after_calls state params deltas (S n)
    = updateState (after_calls state params deltas n) params dt.
Proof.
  intros L. destruct (firstn_succ deltas L) as [dt E]. exists dt.
  unfold after_calls. rewrite E, advance_all_app. reflexivity.
Qed.

Lemma doorB_stays_at_ceiling params deltas k n :
  (k <= n <= length deltas)%nat ->
  (DoorB.angle (doorB (after_calls (started params) params deltas k))
   >=? MAX_DOOR_ANGLE) = true ->
  (DoorB.angle (doorB (after_calls (started params) params deltas n))
   >=? MAX_DOOR_ANGLE) = true.
Proof.
  intros [Kn Nl] Reached. induction n as [|n IH].
  - now replace k with 0%nat in Reached by lia.
  - destruct (Nat.eq_dec k (S n)) as [->|Ne]; [exact Reached|].
    destruct (@after_calls_succ (started params) params deltas n) as [dt E];
      [lia|].
    rewrite E. unfold after_calls.
    apply (doorB_velocity_follows_received_angle params (firstn n deltas) dt).
    apply IH; lia.
Qed.


(** Neither angle is ever above the ceiling, in any reachable state and for
    any elapsed times. *)
Lemma angle_not_above_ceiling ok params (s : SimulationState num) :
  reachable ok params s ->
  (MAX_DOOR_ANGLE <? DoorA.angle (doorA s)) = false
  /\ (MAX_DOOR_ANGLE <? DoorB.angle (doorB s)) = false.
Proof.
  assert ((MAX_DOOR_ANGLE <? MAX_DOOR_ANGLE) = false) as Irr.
  { destruct (MAX_DOOR_ANGLE <? MAX_DOOR_ANGLE) eqn:E; [|reflexivity].
    apply lt_not_ge in E. rewrite ge_MAX_DOOR_ANGLE in E. discriminate. }
  induction 1 as [|s _ IH|s _ IH|s dt _ IH _].
  - cbn. split; apply zero_below_MAX_DOOR_ANGLE.
  - exact IH.
  - exact IH.
  - unfold updateState.
    destruct (isRunning s); cbn; [|exact IH].
    destruct ((DoorA.angle (doorA s) >=? MAX_DOOR_ANGLE)
              && (DoorB.angle (doorB s) >=? MAX_DOOR_ANGLE)); cbn; [exact IH|].
    split.
    + destruct (DoorA.angle (doorA s) >=? MAX_DOOR_ANGLE);
        [exact Irr|apply min_not_above].
    + destruct (DoorB.angle (doorB s) >=? MAX_DOOR_ANGLE);
        [exact Irr|apply min_not_above].
Qed.

(** *** Door A's angular velocity and the stored momentum (C9, C10) *)

Lemma doorA_consistent_reachable ok params s :
  reachable ok params s -> doorA_consistent s.
Proof.
  induction 1 as [|s _ IH|s _ IH|s dt _ IH _].
  - left. reflexivity.
  - exact IH.
  - exact IH.
  - unfold doorA_consistent, updateState.
    destruct (isRunning s); cbn; [|exact IH].
    destruct (DoorA.angle (doorA s) >=? MAX_DOOR_ANGLE) eqn:A; cbn.
    + destruct (DoorB.angle (doorB s) >=? MAX_DOOR_ANGLE); cbn.
      * right; left. exact A.
      * right; left. apply ge_MAX_DOOR_ANGLE.
    + right; right. reflexivity.
Qed.

(** C9, as the code has it.  In a reachable state whose door A is below
    MAX_DOOR_ANGLE, the stored fields are related by the operation that
    produced them: [angularMomentum = momentOfInertia * angularVelocity]
    (the fields written by [initializeState]) or
    [angularVelocity = angularMomentum / momentOfInertia] (the fields
    written by [updateState]). *)
Theorem doorA_velocity_is_quotient
    (params : SimulationParams num) (s : SimulationState num) :
  reachable any_delta params s ->
  (DoorA.angle (doorA s) <? MAX_DOOR_ANGLE) = true ->
  DoorA.angularMomentum (doorA s)
  = DoorA.momentOfInertia (doorA s) * DoorA.angularVelocity (doorA s)
  \/ DoorA.angularVelocity (doorA s)
     = DoorA.angularMomentum (doorA s) / DoorA.momentOfInertia (doorA s).
Proof.
  intros Rs Below.
  destruct (doorA_consistent_reachable Rs) as [I|[A|Q]]; auto.
  rewrite (lt_not_ge _ _ Below) in A. discriminate.
Qed.

(** C10. On a running state with door A at the ceiling and door B below it,
    [updateState] still computes [massRadius] and door A's
    [momentOfInertia] from the new time, returns angular velocity 0 for
    door A and keeps the stored momentum; so the product of the returned
    inertia and velocity is 0 (for a finite inertia) and is never equal to
    a non-zero stored momentum. *)
Theorem doorA_closed_first_keeps_sliding
    (state : SimulationState num) params dt :
  isRunning state = true ->
  (DoorA.angle (doorA state) >=? MAX_DOOR_ANGLE) = true ->
  (DoorB.angle (doorB state) <? MAX_DOOR_ANGLE) = true ->
  let next := updateState state params dt in
  let radius :=
    interpolateRadius (initialRadius params) (finalRadius params)
      (Math_min #1 ((time state + dt) / slideDuration params)) in
  DoorA.massRadius (doorA next) = radius
  /\ DoorA.momentOfInertia (doorA next)
     = calculateTotalMomentOfInertia
         (calculateDoorMomentOfInertia (doorMass params) (doorWidth params))
         (slidingMass params) radius
  /\ DoorA.angularVelocity (doorA next) = #0
  /\ DoorA.angularMomentum (doorA next) = DoorA.angularMomentum (doorA state)
  /\ (isFinite (DoorA.momentOfInertia (doorA next)) = true ->
      (DoorA.momentOfInertia (doorA next) * DoorA.angularVelocity (doorA next)
       === #0) = true)
  /\ ((DoorA.angularMomentum (doorA state) === #0) = false ->
      (DoorA.momentOfInertia (doorA next) * DoorA.angularVelocity (doorA next)
       === DoorA.angularMomentum (doorA next)) = false).
Proof.
  intros Run A B next radius. subst next radius. unfold updateState.
  rewrite Run, A, (lt_not_ge _ _ B). cbn.
  repeat split; trivial.
  - apply mul_zero_finite.
  - apply mul_zero_differs.
Qed.
End ControlFlow.

(** ** Evaluation on IEEE doubles *)

Module Binary64Run.
Import Binary64 Sample.
Local Open Scope num_scope.
Local Set Warnings "-inexact-float".

Lemma binary64_lit_0 : (#0 : spec_float) = S754_zero false.
Proof. reflexivity. Qed.

Lemma binary64_lit_1 :
  (#1 : spec_float) = S754_finite false 4503599627370496 (-52).
Proof. reflexivity. Qed.

(** The literals of the default parameters are the doubles a JavaScript
    engine reads, and the operations agree with the hardware ones. *)
Example literals_are_doubles :
  (#0.1 : spec_float) = Prim2SF 0.1%float
  /\ (#0.9 : spec_float) = Prim2SF 0.9%float
  /\ (#1.2 : spec_float) = Prim2SF 1.2%float
  /\ (#0.5 : spec_float) = Prim2SF 0.5%float
  /\ (Math_PI : spec_float) = Prim2SF 0x1.921fb54442d18p+1%float
  /\ (MAX_DOOR_ANGLE : spec_float) = Prim2SF (0x1.921fb54442d18p+1 / 2)%float.
Proof. vm_compute. repeat split. Qed.

Example operations_are_hardware_ones :
  Prim2SF 0.1%float + Prim2SF 0.2%float = Prim2SF (0.1 + 0.2)%float
  /\ Prim2SF 20.16%float / Prim2SF 10.098765432098766%float
     = Prim2SF (20.16 / 10.098765432098766)%float
  /\ (#1 / #49) * #49 = Prim2SF (1 / 49 * 49)%float
  /\ Prim2SF 1.3%float - Prim2SF 0.7%float = Prim2SF (1.3 - 0.7)%float.
Proof. vm_compute. repeat split. Qed.

(** The concrete scenario of the specification: I_A = 10.08, L_A = 20.16,
    I_B = 10, L_B = 20. *)
Example initializeState_default :
  let s := initializeState (defaultParams (num := spec_float)) in
  DoorA.momentOfInertia (doorA s) = Prim2SF 10.08%float
  /\ DoorA.angularMomentum (doorA s) = Prim2SF 20.16%float
  /\ DoorB.momentOfInertia (doorB s) = Prim2SF 10%float
  /\ DoorB.angularMomentum (doorB s) = Prim2SF 20%float.
Proof. vm_compute. repeat split. Qed.

(** *** [interpolateRadius] (C3) *)

Lemma clamp01_in_unit_interval (p : spec_float) :
  (p >=? #0) = true -> (#1 >=? p) = true ->
  clamp01 p = p \/ exists s, p = S754_zero s /\ clamp01 p = S754_zero false.
Proof.
  unfold clamp01. cbn [ge Math_min Math_max number].
  rewrite binary64_lit_0, binary64_lit_1. intros P0 P1.
  destruct p as [s|s| |s m e].
  - right. exists s. split; [reflexivity|]. now destruct s.
  - destruct s; discriminate.
  - discriminate.
  - left. destruct s; [discriminate|].
    change (max (S754_zero false) (S754_finite false m e))
      with (S754_finite false m e).
    unfold min. unfold SFleb in P1.
    rewrite (Binary64Facts.SFcompare_antisym (S754_finite false m e)
               (S754_finite false 4503599627370496 (-52))).
    destruct (SFcompare (S754_finite false m e)
                (S754_finite false 4503599627370496 (-52))) as [[ | | ]|];
      try discriminate; reflexivity.
Qed.

Lemma eased_clamp01 (p : spec_float) :
  (p >=? #0) = true -> (#1 >=? p) = true -> eased (clamp01 p) = eased p.
Proof.
  intros P0 P1.
  destruct (clamp01_in_unit_interval p P0 P1) as [E|[s [Ep E]]].
  - now rewrite E.
  - rewrite E, Ep. now destruct s.
Qed.

(** C3, as the code has it.  For a progress within [0,1] the radius is the
    one of the specification's formula; the code itself does not clamp the
    progress before the ease blend, only the eased value. *)
Theorem interpolateRadius_on_unit_interval (r1 r2 progress : spec_float) :
  (progress >=? #0) = true ->
  (#1 >=? progress) = true ->
  interpolateRadius r1 r2 progress = interpolateRadius_spec r1 r2 progress.
Proof.
  intros P0 P1. unfold interpolateRadius_spec.
  rewrite (eased_clamp01 progress P0 P1). reflexivity.
Qed.

Lemma interpolateRadius_on_unit_interval_witness :
  ((#0.5 : spec_float) >=? #0) = true
  /\ (#1 >=? (#0.5 : spec_float)) = true
  /\ interpolateRadius #0.1 #0.9 (#0.5 : spec_float)
     = interpolateRadius_spec #0.1 #0.9 #0.5.
Proof.
  split; [reflexivity|]. split; [reflexivity|].
  apply (interpolateRadius_on_unit_interval #0.1 #0.9 #0.5); reflexivity.
Defined.

(** Past the end of the slide the claimed formula gives the final radius,
    the code the initial one: progress 2 eases to 1 - (-2)^2/2 = -1, which
    is clamped to 0. *)
Lemma interpolateRadius_progress_2 :
  interpolateRadius #0 #1 (#2 : spec_float) = #0
  /\ interpolateRadius_spec #0 #1 (#2 : spec_float) = #1
  /\ interpolateRadius #0 #1 (#2 : spec_float)
     <> interpolateRadius_spec #0 #1 #2.
Proof. vm_compute. repeat split. discriminate. Qed.

(** Before the start it is the other way round: progress -1 eases to 2. *)
Example interpolateRadius_progress_minus_1 :
  interpolateRadius #0 #1 (#(-1) : spec_float) = #1
  /\ interpolateRadius_spec #0 #1 (#(-1) : spec_float) = #0.
Proof. vm_compute. split; reflexivity. Qed.

(** At progress 0.5 the eased value is 0.5: the curve passes through the
    midpoint of the two radii. *)
Example eased_half : eased (#0.5 : spec_float) = #0.5.
Proof. vm_compute. reflexivity. Qed.

(** *** The default run (C8) *)

(** C8. From the started default state, ticks of 0.1 s reach the terminal
    state: after 11 calls, and after any larger number of calls, the state
    is not running, in phase2, with both angular velocities 0 and both
    angles equal to MAX_DOOR_ANGLE (exactly, hence within 1e-9). *)
Theorem default_run_converges (n : nat) :
  (11 <= n)%nat ->
  let s := default_run n in
  isRunning s = false
  /\ phase s = phase2
  /\ DoorA.angularVelocity (doorA s) = #0
  /\ DoorB.angularVelocity (doorB s) = #0
  /\ DoorA.angle (doorA s) = MAX_DOOR_ANGLE
  /\ DoorB.angle (doorB s) = MAX_DOOR_ANGLE.
Proof.
  intros Hn.
  assert (default_run n = default_run 11) as ->.
  { replace n with (11 + (n - 11))%nat by lia.
    unfold default_run. rewrite repeat_app, advance_all_app.
    apply advance_all_not_running. vm_compute. reflexivity. }
  vm_compute. repeat split.
Qed.

Lemma default_run_converges_witness :
  let s := default_run 11 in
  isRunning s = false
  /\ phase s = phase2
  /\ DoorA.angularVelocity (doorA s) = #0
  /\ DoorB.angularVelocity (doorB s) = #0
  /\ DoorA.angle (doorA s) = MAX_DOOR_ANGLE
  /\ DoorB.angle (doorB s) = MAX_DOOR_ANGLE.
Proof. apply (default_run_converges (n := 11)). lia. Defined.

(** The run is not over earlier: the tenth call returns phase2 with the stop
    still pending. *)
Example default_run_10 :
  let s := default_run 10 in
  isRunning s = true /\ phase s = phase2
  /\ DoorA.angle (doorA s) = MAX_DOOR_ANGLE
  /\ DoorB.angle (doorB s) = MAX_DOOR_ANGLE.
Proof. vm_compute. repeat split. Qed.

(** *** Witnesses and counterexamples on IEEE doubles *)

Lemma stop_lags_one_tick_witness :
  isRunning (default_run 9) = true
  /\ (DoorA.angle (doorA (default_run 9)) <? MAX_DOOR_ANGLE) = true
  /\ phase (updateState (default_run 9) defaultParams tenth) = phase2
  /\ isRunning (updateState (default_run 9) defaultParams tenth) = true
  /\ forall params' dt',
       isRunning
         (updateState (updateState (default_run 9) defaultParams tenth) params' dt')
       = false.
Proof.
  split; [reflexivity|]. split; [reflexivity|].
  apply (stop_lags_one_tick (default_run 9) defaultParams tenth).
  - reflexivity.
  - left. reflexivity.
  - vm_compute. reflexivity.
  - vm_compute. reflexivity.
Defined.

Lemma updateState_terminal_guard_witness :
  isRunning (default_run 10) = true
  /\ updateState (default_run 10) defaultParams tenth
     = {| time := time (default_run 10);
          isRunning := false;
          phase := phase2;
          doorA := {| DoorA.angle := DoorA.angle (doorA (default_run 10));
                      DoorA.angularVelocity := #0;
                      DoorA.momentOfInertia :=
                        DoorA.momentOfInertia (doorA (default_run 10));
                      DoorA.angularMomentum :=
                        DoorA.angularMomentum (doorA (default_run 10));
                      DoorA.massRadius := DoorA.massRadius (doorA (default_run 10)) |};
          doorB := {| DoorB.angle := DoorB.angle (doorB (default_run 10));
                      DoorB.angularVelocity := #0;
                      DoorB.momentOfInertia :=
                        DoorB.momentOfInertia (doorB (default_run 10));
                      DoorB.angularMomentum :=
                        DoorB.angularMomentum (doorB (default_run 10)) |} |}.
Proof.
  split; [reflexivity|].
  apply (updateState_terminal_guard (default_run 10) defaultParams tenth);
    vm_compute; reflexivity.
Defined.

(** The eighth call of the default run brings door B to the ceiling and
    still returns its angular velocity as 2; the ninth returns 0. *)
Example doorB_velocity_at_ceiling :
  let s := default_run 8 in
  (DoorB.angle (doorB s) >=? MAX_DOOR_ANGLE) = true
  /\ DoorB.angularVelocity (doorB s) = initialAngularVelocity defaultParams
  /\ (DoorB.angularVelocity (doorB s) === #0) = false.
Proof. vm_compute. repeat split. Qed.


(** Along the default run no angle and no radius ever decreases. *)
Example default_run_never_decreases :
  forallb
    (fun n =>
       negb (DoorA.angle (doorA (default_run (S n))) <? DoorA.angle (doorA (default_run n)))
       && negb (DoorB.angle (doorB (default_run (S n))) <? DoorB.angle (doorB (default_run n)))
       && negb (DoorA.massRadius (doorA (default_run (S n)))
                <? DoorA.massRadius (doorA (default_run n))))
    (seq 0 12) = true.
Proof. vm_compute. reflexivity. Qed.

(** With initial angular velocity 1.3 the first call stores an angular
    velocity whose product with the stored inertia is not the stored
    momentum: the quotient was rounded. *)
Lemma doorA_product_not_momentum :
  let s := updateState (started params_1_3) params_1_3 tenth in
  reachable any_delta params_1_3 s
  /\ (DoorA.angle (doorA s) <? MAX_DOOR_ANGLE) = true
  /\ (DoorA.angularVelocity (doorA s) * DoorA.momentOfInertia (doorA s)
      === DoorA.angularMomentum (doorA s)) = false.
Proof.
  split; [|vm_compute; split; reflexivity].
  apply reach_update; [|exact I]. apply reach_start. apply reach_init.
Qed.

Lemma doorA_velocity_is_quotient_witness :
  let s := updateState (started params_1_3) params_1_3 tenth in
  DoorA.angularMomentum (doorA s)
  = DoorA.momentOfInertia (doorA s) * DoorA.angularVelocity (doorA s)
  \/ DoorA.angularVelocity (doorA s)
     = DoorA.angularMomentum (doorA s) / DoorA.momentOfInertia (doorA s).
Proof.
  apply (doorA_velocity_is_quotient (params := params_1_3)).
  - apply reach_update; [|exact I]. apply reach_start. apply reach_init.
  - vm_compute. reflexivity.
Defined.

(** After seven calls of the inward run door A is at the ceiling and door B
    is not; the eighth call moves the mass from 0.378 to 0.278 and changes
    the inertia, with door A's angular velocity 0. *)
Lemma doorA_closed_first_keeps_sliding_witness :
  let state := inward_run 7 in
  let next := updateState state params_inward tenth in
  isRunning state = true
  /\ (DoorA.angle (doorA state) >=? MAX_DOOR_ANGLE) = true
  /\ (DoorB.angle (doorB state) <? MAX_DOOR_ANGLE) = true
  /\ (DoorA.massRadius (doorA next) === DoorA.massRadius (doorA state)) = false
  /\ (DoorA.momentOfInertia (doorA next)
      === DoorA.momentOfInertia (doorA state)) = false
  /\ DoorA.angularVelocity (doorA next) = #0
  /\ (DoorA.momentOfInertia (doorA next) * DoorA.angularVelocity (doorA next)
      === #0) = true
  /\ (DoorA.momentOfInertia (doorA next) * DoorA.angularVelocity (doorA next)
      === DoorA.angularMomentum (doorA next)) = false.
Proof.
  intros state next.
  assert (isRunning state = true) as R by reflexivity.
  assert ((DoorA.angle (doorA state) >=? MAX_DOOR_ANGLE) = true) as A
      by (vm_compute; reflexivity).
  assert ((DoorB.angle (doorB state) <? MAX_DOOR_ANGLE) = true) as B
      by (vm_compute; reflexivity).
  destruct (doorA_closed_first_keeps_sliding state params_inward tenth R A B)
    as (_ & _ & V & _ & Z & D).
  split; [exact R|]. split; [exact A|]. split; [exact B|].
  split; [vm_compute; reflexivity|]. split; [vm_compute; reflexivity|].
  split; [exact V|].
  split; [apply Z | apply D]; vm_compute; reflexivity.
Defined.
End Binary64Run.

(** ** Exact arithmetic: monotonicity of the angles and of the radius *)

Module ExactRun.
Import Exact Params.
Local Open Scope R_scope.

Lemma Q2R_0 : Q2R 0 = 0.
Proof. unfold Q2R. cbn. lra. Qed.

Lemma Q2R_1 : Q2R 1 = 1.
Proof. unfold Q2R. cbn. lra. Qed.

Lemma Q2R_2 : Q2R 2 = 2.
Proof. unfold Q2R. cbn. lra. Qed.

Lemma Q2R_3 : Q2R 3 = 3.
Proof. unfold Q2R. cbn. lra. Qed.

Lemma Q2R_minus_2 : Q2R (-2) = -2.
Proof. unfold Q2R. cbn. lra. Qed.

Lemma Q2R_half : Q2R 0.5 = / 2.
Proof. unfold Q2R. cbn. lra. Qed.

Create Rewrite HintDb literals.
#[local] Hint Rewrite Q2R_0 Q2R_1 Q2R_2 Q2R_3 Q2R_minus_2 Q2R_half : literals.

Lemma ltb_true (a b : R) : ltb a b = true <-> a < b.
Proof. unfold ltb. destruct (Rlt_dec a b); split; intros; try lra; discriminate. Qed.

Lemma geb_true (a b : R) : geb a b = true <-> b <= a.
Proof. unfold geb. destruct (Rge_dec a b); split; intros; try lra; discriminate. Qed.

Lemma geb_false (a b : R) : geb a b = false <-> a < b.
Proof. unfold geb. destruct (Rge_dec a b); split; intros; try lra; discriminate. Qed.

Lemma MAX_DOOR_ANGLE_pos : 0 < MAX_DOOR_ANGLE.
Proof.
  unfold MAX_DOOR_ANGLE. cbn. rewrite Q2R_2.
  pose proof PI_RGT_0. lra.
Qed.

(** The easing expression over the reals. *)
Lemma eased_exact (p : R) :
  eased p = if Rlt_dec p (/ 2) then 2 * p * p
            else 1 - (-2 * p + 2) * (-2 * p + 2) / 2.
Proof.
  unfold eased. cbn. autorewrite with literals. unfold ltb.
  destruct (Rlt_dec p (/ 2)); reflexivity.
Qed.

Lemma eased_monotone (p q : R) :
  0 <= p -> p <= q -> q <= 1 -> eased p <= eased q.
Proof.
  intros P PQ Q. rewrite !eased_exact.
  destruct (Rlt_dec p (/ 2)), (Rlt_dec q (/ 2)); nra.
Qed.

Lemma clamp01_exact (x : R) : clamp01 x = Rmin 1 (Rmax 0 x).
Proof. unfold clamp01. cbn. now autorewrite with literals. Qed.

Lemma clamp01_bounds (x : R) : 0 <= clamp01 x <= 1.
Proof.
  rewrite clamp01_exact.
  unfold Rmin, Rmax. destruct (Rle_dec 0 x), (Rle_dec 1 _); lra.
Qed.

Lemma clamp01_monotone (x y : R) : x <= y -> clamp01 x <= clamp01 y.
Proof.
  intros XY. rewrite !clamp01_exact. unfold Rmin, Rmax.
  destruct (Rle_dec 0 x), (Rle_dec 0 y);
    repeat match goal with |- context [Rle_dec ?a ?b] => destruct (Rle_dec a b) end;
    lra.
Qed.

Lemma interpolateRadius_exact (r1 r2 p : R) :
  interpolateRadius r1 r2 p = r1 + (r2 - r1) * clamp01 (eased p).
Proof. reflexivity. Qed.

Lemma interpolateRadius_monotone (r1 r2 p q : R) :
  r1 <= r2 -> 0 <= p -> p <= q -> q <= 1 ->
  interpolateRadius r1 r2 p <= interpolateRadius r1 r2 q.
Proof.
  intros R12 P PQ Q. rewrite !interpolateRadius_exact.
  pose proof (clamp01_monotone (eased_monotone P PQ Q)).
  nra.
Qed.

(** Over the reals too the formula of the specification agrees with the
    code on [0,1]. *)
Lemma interpolateRadius_on_unit_interval_exact (r1 r2 p : R) :
  0 <= p <= 1 -> interpolateRadius r1 r2 p = interpolateRadius_spec r1 r2 p.
Proof.
  intros P. unfold interpolateRadius_spec.
  assert (clamp01 p = p) as ->; [|reflexivity].
  rewrite clamp01_exact. rewrite Rmax_right by lra. apply Rmin_right. lra.
Qed.

Lemma interpolateRadius_start (r1 r2 : R) : interpolateRadius r1 r2 0 = r1.
Proof.
  rewrite interpolateRadius_exact, eased_exact, clamp01_exact.
  destruct (Rlt_dec 0 (/ 2)); [|lra].
  replace (2 * 0 * 0) with 0 by lra.
  unfold Rmin, Rmax. destruct (Rle_dec 0 0), (Rle_dec 1 _); lra.
Qed.

Lemma slideProgress_bounds params t :
  0 < slideDuration params -> 0 <= t -> 0 <= slideProgress params t <= 1.
Proof.
  intros D T. unfold slideProgress.
  assert (0 <= t / slideDuration params) by (apply Rle_mult_inv_pos; lra).
  unfold Rmin. destruct (Rle_dec 1 _); lra.
Qed.

Lemma slideProgress_monotone params t u :
  0 < slideDuration params -> t <= u ->
  slideProgress params t <= slideProgress params u.
Proof.
  intros D TU. unfold slideProgress.
  assert (t / slideDuration params <= u / slideDuration params).
  { unfold Rdiv. apply Rmult_le_compat_r; [|exact TU].
    apply Rlt_le, Rinv_0_lt_compat, D. }
  unfold Rmin. destruct (Rle_dec 1 _), (Rle_dec 1 _); lra.
Qed.

Lemma door_inertia_pos (params : SimulationParams R) :
  valid params ->
  0 < calculateDoorMomentOfInertia (doorMass params) (doorWidth params).
Proof.
  intros V. unfold calculateDoorMomentOfInertia. cbn. autorewrite with literals.
  pose proof (doorMass_pos V). pose proof (doorWidth_pos V).
  assert (0 < doorMass params * doorWidth params) by nra.
  assert (0 < doorMass params * doorWidth params * doorWidth params) by nra.
  lra.
Qed.

Lemma total_inertia_pos (params : SimulationParams R) (r : R) :
  valid params ->
  0 < calculateTotalMomentOfInertia
        (calculateDoorMomentOfInertia (doorMass params) (doorWidth params))
        (slidingMass params) r.
Proof.
  intros V. pose proof (door_inertia_pos V) as D. pose proof (slidingMass_nonneg V).
  revert D. generalize (calculateDoorMomentOfInertia (doorMass params) (doorWidth params)).
  intros d D. unfold calculateTotalMomentOfInertia. cbn.
  assert (0 <= r * r) by nra.
  assert (0 <= slidingMass params * (r * r)) by nra.
  lra.
Qed.

Ltac fields :=
  cbn [time isRunning phase doorA doorB
       DoorA.angle DoorA.angularVelocity DoorA.momentOfInertia
       DoorA.angularMomentum DoorA.massRadius
       DoorB.angle DoorB.angularVelocity DoorB.momentOfInertia
       DoorB.angularMomentum andb negb].

Ltac exact_ops :=
  cbn [add sub mul div lt ge Math_min Math_max Math_pow2 lit number].

(** The three ways a call can go, with the comparisons read over the reals. *)
Lemma updateState_cases (s : SimulationState R) params dt :
  (isRunning s = false /\ updateState s params dt = s)
  \/ (isRunning s = true
      /\ MAX_DOOR_ANGLE <= DoorA.angle (doorA s)
      /\ MAX_DOOR_ANGLE <= DoorB.angle (doorB s)
      /\ time (updateState s params dt) = time s
      /\ DoorA.angle (doorA (updateState s params dt)) = DoorA.angle (doorA s)
      /\ DoorB.angle (doorB (updateState s params dt)) = DoorB.angle (doorB s)
      /\ DoorB.angularVelocity (doorB (updateState s params dt)) = 0
      /\ DoorA.massRadius (doorA (updateState s params dt))
         = DoorA.massRadius (doorA s))
  \/ (isRunning s = true
      /\ (DoorA.angle (doorA s) < MAX_DOOR_ANGLE
          \/ DoorB.angle (doorB s) < MAX_DOOR_ANGLE)
      /\ time (updateState s params dt) = time s + dt
      /\ DoorA.angle (doorA (updateState s params dt))
         = (if Rge_dec (DoorA.angle (doorA s)) MAX_DOOR_ANGLE
            then MAX_DOOR_ANGLE
            else Rmin MAX_DOOR_ANGLE
                   (DoorA.angle (doorA s)
                    + DoorA.angularMomentum (doorA s)
                      / calculateTotalMomentOfInertia
                          (calculateDoorMomentOfInertia
                             (doorMass params) (doorWidth params))
                          (slidingMass params)
                          (interpolateRadius (initialRadius params)
                             (finalRadius params)
                             (slideProgress params (time s + dt)))
                      * dt))
      /\ DoorB.angle (doorB (updateState s params dt))
         = (if Rge_dec (DoorB.angle (doorB s)) MAX_DOOR_ANGLE
            then MAX_DOOR_ANGLE
            else Rmin MAX_DOOR_ANGLE
                   (DoorB.angle (doorB s)
                    + DoorB.angularVelocity (doorB s) * dt))
      /\ DoorB.angularVelocity (doorB (updateState s params dt))
         = (if Rge_dec (DoorB.angle (doorB s)) MAX_DOOR_ANGLE
            then 0 else DoorB.angularVelocity (doorB s))
      /\ DoorA.massRadius (doorA (updateState s params dt))
         = interpolateRadius (initialRadius params) (finalRadius params)
             (slideProgress params (time s + dt))).
Proof.
  destruct (isRunning s) eqn:Run.
  2:{ left. split; [reflexivity|]. now apply updateState_not_running. }
  right. unfold updateState. rewrite Run. fields.
  destruct (@ge R number (DoorA.angle (doorA s)) MAX_DOOR_ANGLE) eqn:A;
    destruct (@ge R number (DoorB.angle (doorB s)) MAX_DOOR_ANGLE) eqn:B;
    fields.
  1:{ left. apply geb_true in A, B. repeat split; trivial. exact Q2R_0. }
  all: right; split; [reflexivity|]; split;
    [ first [ right; now apply geb_false in B | left; now apply geb_false in A ] |].
  all: split; [reflexivity|].
  all: unfold slideProgress, calculateAngularVelocity; exact_ops; unfold geb;
    rewrite ?Q2R_0, ?Q2R_1;
    cbn [ge number] in A, B; unfold geb in A, B;
    destruct (Rge_dec (DoorA.angle (doorA s)) MAX_DOOR_ANGLE);
    destruct (Rge_dec (DoorB.angle (doorB s)) MAX_DOOR_ANGLE);
    try discriminate; repeat split; reflexivity.
Qed.

Lemma inv_initial params : valid params -> inv params (initializeState params).
Proof.
  intros V. pose proof MAX_DOOR_ANGLE_pos as M.
  pose proof (initialAngularVelocity_pos V) as W.
  pose proof (total_inertia_pos (initialRadius params) V) as T.
  split; unfold initializeState; fields.
  - cbn. rewrite Q2R_0. lra.
  - cbn [lit number]. rewrite Q2R_0. lra.
  - cbn [lit number]. rewrite Q2R_0. lra.
  - lra.
  - cbn [mul number]. now apply Rmult_lt_0_compat.
  - cbn [lit number]. rewrite Q2R_0. unfold slideProgress.
    replace (0 / slideDuration params) with 0 by (unfold Rdiv; lra).
    rewrite Rmin_right by lra. now rewrite interpolateRadius_start.
Qed.

Lemma inv_update params s dt :
  valid params -> inv params s -> 0 <= dt -> inv params (updateState s params dt).
Proof.
  intros V I D.
  destruct (updateState_cases s params dt)
    as [[_ E]|[(_ & _ & _ & Et & EA & EB & EV & Er)|(_ & _ & Et & EA & EB & EV & Er)]].
  - now rewrite E.
  - destruct I. split;
      rewrite ?Et, ?EA, ?EB, ?EV, ?Er, ?updateState_momentum_A; try assumption; lra.
  - destruct I. split.
    + rewrite Et. lra.
    + rewrite EA. destruct (Rge_dec (DoorA.angle _) _); [lra|apply Rmin_l].
    + rewrite EB. destruct (Rge_dec (DoorB.angle _) _); [lra|apply Rmin_l].
    + rewrite EV. destruct (Rge_dec (DoorB.angle _) _); lra.
    + now rewrite updateState_momentum_A.
    + now rewrite Er, Et.
Qed.

Lemma inv_reachable params s :
  valid params -> reachable nonneg_delta params s -> inv params s.
Proof.
  intros V. induction 1 as [|s _ IH|s _ IH|s dt _ IH D].
  - now apply inv_initial.
  - destruct IH. now split.
  - destruct IH. now split.
  - now apply inv_update.
Qed.

Lemma step_monotone params s dt :
  valid params -> inv params s -> 0 <= dt ->
  DoorA.angle (doorA s) <= DoorA.angle (doorA (updateState s params dt))
  /\ DoorB.angle (doorB s) <= DoorB.angle (doorB (updateState s params dt))
  /\ DoorA.massRadius (doorA s) <= DoorA.massRadius (doorA (updateState s params dt)).
Proof.
  intros V I D.
  destruct (updateState_cases s params dt)
    as [[_ E]|[(_ & _ & _ & Et & EA & EB & EV & Er)|(_ & _ & Et & EA & EB & EV & Er)]].
  - rewrite E. repeat split; lra.
  - rewrite EA, EB, Er. repeat split; lra.
  - destruct I as [It IA IB IV IL Ir]. rewrite EA, EB, Er. repeat split.
    + destruct (Rge_dec (DoorA.angle _) _); [exact IA|].
      apply Rmin_glb; [lra|].
      pose proof (total_inertia_pos
                    (interpolateRadius (initialRadius params) (finalRadius params)
                       (slideProgress params (time s + dt))) V) as T.
      pose proof (Rdiv_lt_0_compat _ _ IL T). nra.
    + destruct (Rge_dec (DoorB.angle _) _); [exact IB|].
      apply Rmin_glb; [lra|nra].
    + rewrite Ir.
      pose proof (slideDuration_pos V) as S.
      apply interpolateRadius_monotone.
      * pose proof (finalRadius_above V). lra.
      * now apply slideProgress_bounds.
      * apply slideProgress_monotone; [exact S|lra].
      * apply slideProgress_bounds; [exact S|lra].
Qed.

Lemma run_monotone params (deltas : list R) :
  valid params -> Forall nonneg_delta deltas ->
  forall s, inv params s ->
    DoorA.angle (doorA s) <= DoorA.angle (doorA (advance_all s params deltas))
    /\ DoorB.angle (doorB s) <= DoorB.angle (doorB (advance_all s params deltas))
    /\ DoorA.massRadius (doorA s)
       <= DoorA.massRadius (doorA (advance_all s params deltas))
    /\ inv params (advance_all s params deltas).
Proof.
  intros V. induction 1 as [|dt rest D _ IH]; intros s I; cbn [advance_all].
  - split; [lra|]. split; [lra|]. split; [lra|exact I].
  - destruct (step_monotone V I D) as (A & B & Rd).
    destruct (IH _ (inv_update V I D)) as (A' & B' & Rd' & I').
    split; [lra|]. split; [lra|]. split; [lra|exact I'].
Qed.


Lemma MAX_DOOR_ANGLE_exact : (MAX_DOOR_ANGLE : R) = PI / 2.
Proof. unfold MAX_DOOR_ANGLE. cbn. now rewrite Q2R_2. Qed.

Lemma defaultParams_valid : valid defaultParams.
Proof. split; cbn; unfold Q2R; cbn; lra. Qed.


(** In exact arithmetic the quotient stored by [updateState] does give back
    the momentum: the product is exact as long as the inertia is not 0. *)
Lemma doorA_velocity_times_inertia
    (params : SimulationParams R) (s : SimulationState R) :
  valid params ->
  reachable nonneg_delta params s ->
  DoorA.angle (doorA s) < MAX_DOOR_ANGLE ->
  0 < DoorA.momentOfInertia (doorA s) ->
  DoorA.angularVelocity (doorA s) * DoorA.momentOfInertia (doorA s)
  = DoorA.angularMomentum (doorA s).
Proof.
  intros V Rs Below Pos.
  destruct (doorA_consistent_reachable Rs) as [E|[E|E]].
  - rewrite E. cbn. ring.
  - apply geb_true in E. lra.
  - rewrite E. cbn. field. lra.
Qed.
End ExactRun.

(** ** Further properties of the state machine, for every number model *)

Section StateMachine.
Context {num : Type} `{NumberLaws num}.
Local Open Scope num_scope.

(** [updateState] never reads the stored phase. *)
Lemma updateState_ignores_phase (s : SimulationState num) (ph : Phase) params dt :
  isRunning s = true ->
  updateState {| time := time s; isRunning := isRunning s; phase := ph;
                 doorA := doorA s; doorB := doorB s |} params dt
  = updateState s params dt.
Proof. intros Run. unfold updateState. cbn. rewrite Run. reflexivity. Qed.

(** X1. Pausing a running simulation and starting it again does not change what
    the next call returns. *)
Theorem pause_then_start_is_transparent (s : SimulationState num) params dt :
  isRunning s = true ->
  updateState (handleStart (handlePause s)) params dt = updateState s params dt.
Proof.
  intros Run. rewrite <- (updateState_ignores_phase s phase1 params dt Run).
  unfold handleStart, handlePause. cbn. rewrite Run. reflexivity.
Qed.

Lemma updateState_phase (s : SimulationState num) params dt :
  isRunning s = true ->
  phase (updateState s params dt)
  = if (DoorA.angle (doorA (updateState s params dt)) >=? MAX_DOOR_ANGLE)
       && (DoorB.angle (doorB (updateState s params dt)) >=? MAX_DOOR_ANGLE)
    then phase2 else phase1.
Proof.
  intros Run. unfold updateState. rewrite Run. cbn.
  destruct ((DoorA.angle (doorA s) >=? MAX_DOOR_ANGLE)
            && (DoorB.angle (doorB s) >=? MAX_DOOR_ANGLE)) eqn:G; cbn.
  - now rewrite G.
  - reflexivity.
Qed.

(** X2. Pressing Start on a completed simulation is undone by the next call:
    the guard returns the very state the simulation had completed in. *)
Theorem start_after_completion_is_absorbed (s : SimulationState num) params dt :
  completed s -> updateState (handleStart s) params dt = s.
Proof.
  intros (Run & Ph & A & B & VA & VB).
  unfold updateState, handleStart. cbn. rewrite A, B. cbn.
  destruct s as [t r ph [aA vA iA lA rA] [aB vB iB lB]]. cbn in *.
  now subst.
Qed.

Lemma guard_result_completed (s : SimulationState num) params dt :
  isRunning s = true ->
  (DoorA.angle (doorA s) >=? MAX_DOOR_ANGLE) = true ->
  (DoorB.angle (doorB s) >=? MAX_DOOR_ANGLE) = true ->
  completed (updateState s params dt).
Proof.
  intros Run A B. unfold updateState. rewrite Run, A, B. cbn.
  repeat split; assumption.
Qed.

Lemma phase_inv_step (s : SimulationState num) params dt :
  phase_inv s -> phase_inv (updateState s params dt).
Proof.
  intros I. destruct (isRunning s) eqn:Run;
    [|now rewrite (updateState_not_running s params dt Run)].
  pose proof (updateState_phase s params dt Run) as P.
  unfold phase_inv. rewrite P.
  destruct ((DoorA.angle (doorA (updateState s params dt)) >=? MAX_DOOR_ANGLE)
            && (DoorB.angle (doorB (updateState s params dt)) >=? MAX_DOOR_ANGLE))
    eqn:G; split; try discriminate.
  intros _. now apply andb_true_iff in G.
Qed.

Lemma phase2_step (s : SimulationState num) params dt :
  phase_inv s -> phase s = phase2 -> phase (updateState s params dt) = phase2.
Proof.
  intros [_ I] P. destruct (I P) as [A B].
  unfold updateState. destruct (isRunning s); cbn; [|exact P].
  now rewrite A, B.
Qed.

Lemma phase_inv_after_calls params (deltas : list num) n :
  phase_inv (after_calls (started params) params deltas n).
Proof.
  unfold after_calls. generalize (firstn n deltas). intros l.
  assert (phase_inv (started params)) as I0 by (split; cbn; discriminate).
  revert I0. generalize (started params).
  induction l as [|dt l IH]; intros s I; cbn; [exact I|].
  apply IH. now apply phase_inv_step.
Qed.

(** X3. Along a run from the started initial state the phase is never idle and
    never goes back from phase2 to phase1. *)
Theorem phase_never_regresses (params : SimulationParams num) (deltas : list num) :
  let returned := after_calls (started params) params deltas in
  (forall n : nat, phase (returned n) <> idle)
  /\ (forall k n : nat,
        (k <= n <= length deltas)%nat ->
        phase (returned k) = phase2 -> phase (returned n) = phase2).
Proof.
  intros returned. subst returned. split.
  - intros n. apply phase_inv_after_calls.
  - intros k n [Kn Nl] P. induction n as [|n IH].
    + now replace k with 0%nat in P by lia.
    + destruct (Nat.eq_dec k (S n)) as [->|Ne]; [exact P|].
      destruct (@after_calls_succ _ _ (started params) params deltas n) as [dt E];
        [lia|].
      rewrite E. apply phase2_step; [apply phase_inv_after_calls|].
      apply IH; lia.
Qed.

(** X4. Door B's moment of inertia is the rigid-door inertia in every state the
    host can reach, and its stored momentum is that inertia times the initial
    angular velocity. *)
Theorem doorB_inertia_constant ok (params : SimulationParams num)
    (s : SimulationState num) :
  reachable ok params s ->
  DoorB.momentOfInertia (doorB s)
  = calculateDoorMomentOfInertia (doorMass params) (doorWidth params)
  /\ DoorB.angularMomentum (doorB s)
     = DoorB.momentOfInertia (doorB s) * initialAngularVelocity params.
Proof.
  induction 1 as [|s _ IH|s _ IH|s dt _ IH _]; try exact IH.
  - split; reflexivity.
  - unfold updateState. destruct (isRunning s); cbn; [|exact IH].
    destruct (_ && _); cbn; exact IH.
Qed.
End StateMachine.

(** ** Exact arithmetic: how the two doors move *)

Module ExactKinematics.
Import Exact Params ExactRun Kinematics.
Local Open Scope R_scope.

(** Door A's fields in the three ways a call can go. *)
Lemma updateState_doorA (s : SimulationState R) params dt :
  (isRunning s = false /\ updateState s params dt = s)
  \/ (isRunning s = true
      /\ MAX_DOOR_ANGLE <= DoorA.angle (doorA s)
      /\ MAX_DOOR_ANGLE <= DoorB.angle (doorB s)
      /\ isRunning (updateState s params dt) = false
      /\ phase (updateState s params dt) = phase2
      /\ DoorA.angularVelocity (doorA (updateState s params dt)) = 0
      /\ DoorA.momentOfInertia (doorA (updateState s params dt))
         = DoorA.momentOfInertia (doorA s))
  \/ (isRunning s = true
      /\ (DoorA.angle (doorA s) < MAX_DOOR_ANGLE
          \/ DoorB.angle (doorB s) < MAX_DOOR_ANGLE)
      /\ isRunning (updateState s params dt) = true
      /\ DoorA.momentOfInertia (doorA (updateState s params dt))
         = inertiaA params (DoorA.massRadius (doorA (updateState s params dt)))
      /\ DoorA.angularVelocity (doorA (updateState s params dt))
         = (if Rge_dec (DoorA.angle (doorA s)) MAX_DOOR_ANGLE
            then 0
            else DoorA.angularMomentum (doorA s)
                 / DoorA.momentOfInertia (doorA (updateState s params dt)))).
Proof.
  destruct (isRunning s) eqn:Run.
  2:{ left. split; [reflexivity|]. now apply updateState_not_running. }
  right. unfold updateState. rewrite Run. fields.
  destruct (@ge R number (DoorA.angle (doorA s)) MAX_DOOR_ANGLE) eqn:A;
    destruct (@ge R number (DoorB.angle (doorB s)) MAX_DOOR_ANGLE) eqn:B;
    fields.
  1:{ left. apply geb_true in A, B. repeat split; trivial. exact Q2R_0. }
  all: right; split; [reflexivity|]; split;
    [ first [ right; now apply geb_false in B | left; now apply geb_false in A ] |].
  all: split; [reflexivity|]; split; [reflexivity|].
  all: unfold calculateAngularVelocity; exact_ops; unfold geb;
    rewrite ?Q2R_0;
    cbn [ge number] in A; unfold geb in A;
    destruct (Rge_dec (DoorA.angle (doorA s)) MAX_DOOR_ANGLE);
    try discriminate; reflexivity.
Qed.

Lemma inertiaA_exact params r :
  inertiaA params r
  = calculateDoorMomentOfInertia (doorMass params) (doorWidth params)
    + slidingMass params * r * r.
Proof. reflexivity. Qed.

Lemma inertiaA_pos params r : valid params -> 0 < inertiaA params r.
Proof. intros V. exact (total_inertia_pos r V). Qed.

Lemma inertiaA_monotone params r r' :
  valid params -> 0 <= r -> r <= r' -> inertiaA params r <= inertiaA params r'.
Proof.
  intros V R0 RR. rewrite !inertiaA_exact.
  pose proof (slidingMass_nonneg V).
  assert (r * r <= r' * r') by nra.
  assert (slidingMass params * (r * r) <= slidingMass params * (r' * r')) by nra.
  lra.
Qed.

Lemma interpolateRadius_end (r1 r2 : R) : interpolateRadius r1 r2 1 = r2.
Proof.
  rewrite interpolateRadius_exact, eased_exact, clamp01_exact.
  destruct (Rlt_dec 1 (/ 2)); [lra|].
  replace (1 - (-2 * 1 + 2) * (-2 * 1 + 2) / 2) with 1 by lra.
  rewrite Rmax_right by lra. rewrite Rmin_left by lra. lra.
Qed.

Lemma interpolateRadius_bounds (r1 r2 p : R) :
  r1 <= r2 -> r1 <= interpolateRadius r1 r2 p <= r2.
Proof.
  intros R12. rewrite interpolateRadius_exact.
  pose proof (clamp01_bounds (eased p)). nra.
Qed.

Lemma massRadius_bounds_aux
    (params : SimulationParams R) (s : SimulationState R) :
  valid params ->
  reachable nonneg_delta params s ->
  initialRadius params <= DoorA.massRadius (doorA s) <= finalRadius params
  /\ inertiaA params (initialRadius params)
     <= inertiaA params (DoorA.massRadius (doorA s))
     <= inertiaA params (finalRadius params).
Proof.
  intros V Rs. destruct (inv_reachable V Rs) as [_ _ _ _ _ Ir].
  pose proof (finalRadius_above V). pose proof (initialRadius_nonneg V).
  assert (initialRadius params <= DoorA.massRadius (doorA s) <= finalRadius params)
    as B by (rewrite Ir; apply interpolateRadius_bounds; lra).
  split; [exact B|].
  split; apply inertiaA_monotone; trivial; lra.
Qed.



Lemma kinematics_initial params : valid params -> inv params (initializeState params).
Proof.
  intros V. pose proof (initialAngularVelocity_pos V).
  split; unfold initializeState; fields; try reflexivity; try lra.
Qed.

Lemma kinematics_update params s dt :
  valid params -> Params.inv params s -> inv params s -> 0 <= dt ->
  inv params (updateState s params dt).
Proof.
  intros V P K D.
  pose proof (inv_update V P D) as P'.
  pose proof (initialAngularVelocity_pos V) as W.
  destruct K as [KI KL KB KO KV].
  destruct (updateState_doorA s params dt)
    as [[_ E]|[(Run & GA & GB & _ & _ & EV & EI)|(Run & Bel & _ & EI & EV)]].
  - rewrite E. now split.
  - destruct (updateState_cases s params dt)
      as [[F _]|[(_ & _ & _ & _ & EA & EB & EVB & Er)|(_ & [F|F] & _)]];
      try congruence; try lra.
    split.
    + now rewrite EI, Er.
    + now rewrite updateState_momentum_A.
    + rewrite EB. intros. lra.
    + now rewrite EA, EB.
    + rewrite EV. lra.
  - destruct (updateState_cases s params dt)
      as [[F _]|[(_ & FA & FB & _)|(_ & _ & Et & EA & EB & EVB & Er)]];
      try congruence; try lra.
    assert (0 < DoorA.momentOfInertia (doorA (updateState s params dt))) as IP
        by (rewrite EI; now apply inertiaA_pos).
    assert (inertiaA params (initialRadius params)
            <= DoorA.momentOfInertia (doorA (updateState s params dt))) as IM.
    { rewrite EI. destruct P' as [_ _ _ _ _ Ir']. rewrite Ir'.
      pose proof (finalRadius_above V). pose proof (initialRadius_nonneg V).
      apply inertiaA_monotone; trivial.
      apply interpolateRadius_bounds. lra. }
    pose proof (inertiaA_pos (initialRadius params) V) as I1.
    assert (0 <= DoorA.angularMomentum (doorA s)
                 / DoorA.momentOfInertia (doorA (updateState s params dt))
            <= initialAngularVelocity params) as Q.
    { rewrite KL. split.
      - apply Rlt_le, Rdiv_lt_0_compat; [nra|exact IP].
      - apply Rmult_le_reg_r
          with (DoorA.momentOfInertia (doorA (updateState s params dt)));
          [exact IP|].
        unfold Rdiv. rewrite Rmult_assoc, Rinv_l by lra. nra. }
    split.
    + exact EI.
    + now rewrite updateState_momentum_A.
    + rewrite EB, EVB. destruct (Rge_dec (DoorB.angle _) _); [lra|]. intros _.
      apply KB. lra.
    + assert (DoorA.angle (doorA (updateState s params dt))
              = if Rge_dec (DoorA.angle (doorA s)) MAX_DOOR_ANGLE
                then MAX_DOOR_ANGLE
                else Rmin MAX_DOOR_ANGLE
                       (DoorA.angle (doorA s)
                        + DoorA.angularMomentum (doorA s)
                          / DoorA.momentOfInertia (doorA (updateState s params dt))
                          * dt)) as EA'.
      { rewrite EA, EI, Er. reflexivity. }
      rewrite EA', EB.
      destruct P as [_ PA PB _ _ _].
      destruct (Rge_dec (DoorA.angle _) _), (Rge_dec (DoorB.angle _) _); try lra.
      * apply Rmin_l.
      * rewrite (KB ltac:(lra)).
        apply Rle_min_compat_l.
        set (q := DoorA.angularMomentum (doorA s) / _) in *.
        nra.
    + rewrite EV. destruct (Rge_dec (DoorA.angle _) _); [lra|exact Q].
Qed.

Lemma kinematics_reachable params s :
  valid params -> reachable nonneg_delta params s -> inv params s.
Proof.
  intros V Rs. induction Rs as [|s Rs IH|s Rs IH|s dt Rs IH D].
  - now apply kinematics_initial.
  - destruct IH. now split.
  - destruct IH. now split.
  - apply kinematics_update; trivial. now apply inv_reachable.
Qed.





(** *** Every run with a fixed positive step ends *)

Lemma advance_all_repeat_succ (s : SimulationState R) params dt n :
  advance_all s params (repeat dt (S n))
  = updateState (advance_all s params (repeat dt n)) params dt.
Proof.
  change (repeat dt (S n)) with (dt :: repeat dt n).
  rewrite repeat_cons, advance_all_app. reflexivity.
Qed.

Lemma closed_update params s dt : closed s -> closed (updateState s params dt).
Proof.
  intros C. destruct C as (Run & C).
  rewrite (updateState_not_running s params dt Run). now split.
Qed.

Lemma least_gain_pos params dt : valid params -> 0 < dt -> 0 < least_gain params dt.
Proof.
  intros V D. unfold least_gain.
  pose proof (inertiaA_pos (initialRadius params) V).
  pose proof (inertiaA_pos (finalRadius params) V).
  pose proof (initialAngularVelocity_pos V).
  apply Rmult_lt_0_compat; [|exact D].
  apply Rdiv_lt_0_compat; [|assumption]. nra.
Qed.

Lemma update_progress params s dt :
  valid params -> reachable nonneg_delta params s -> 0 < dt ->
  isRunning s = true ->
  closed (updateState s params dt)
  \/ (isRunning (updateState s params dt) = true
      /\ Rmin MAX_DOOR_ANGLE (DoorA.angle (doorA s) + least_gain params dt)
         <= DoorA.angle (doorA (updateState s params dt))
      /\ Rmin MAX_DOOR_ANGLE (DoorB.angle (doorB s) + least_gain params dt)
         <= DoorB.angle (doorB (updateState s params dt))).
Proof.
  intros V Rs D Run.
  pose proof (inv_reachable V Rs) as [_ PA PB _ _ _].
  destruct (kinematics_reachable V Rs) as [_ KL KB _ _].
  assert (reachable nonneg_delta params (updateState s params dt)) as Rs'
      by (apply reach_update; [exact Rs|unfold nonneg_delta; lra]).
  destruct (massRadius_bounds_aux V Rs') as [_ IB].
  pose proof (inertiaA_pos (initialRadius params) V) as I1.
  pose proof (inertiaA_pos (finalRadius params) V) as I2.
  pose proof (initialAngularVelocity_pos V) as W.
  destruct (updateState_doorA s params dt)
    as [[F _]|[(_ & GA & GB & Stop & Ph & EV & _)|(_ & Bel & Run' & EI & EV)]];
    [congruence| |].
  - left.
    destruct (updateState_cases s params dt)
      as [[F _]|[(_ & _ & _ & _ & EA & EB & EVB & _)|(_ & [F|F] & _)]];
      try congruence; try lra.
    repeat split; trivial; rewrite ?EA, ?EB; lra.
  - right. split; [exact Run'|].
    destruct (updateState_cases s params dt)
      as [[F _]|[(_ & FA & FB & _)|(_ & _ & Et & EA & EB & EVB & Er)]];
      try congruence; try lra.
    assert (least_gain params dt
            <= DoorA.angularMomentum (doorA s)
               / DoorA.momentOfInertia (doorA (updateState s params dt)) * dt) as GA.
    { unfold least_gain. rewrite KL. apply Rmult_le_compat_r; [lra|].
      unfold Rdiv. apply Rmult_le_compat_l; [nra|].
      apply Rinv_le_contravar; [rewrite EI; now apply inertiaA_pos|].
      rewrite EI. apply IB. }
    assert (least_gain params dt <= initialAngularVelocity params * dt) as GB.
    { unfold least_gain. apply Rmult_le_compat_r; [lra|].
      apply Rmult_le_reg_r with (inertiaA params (finalRadius params)); [exact I2|].
      unfold Rdiv. rewrite Rmult_assoc, Rinv_l by lra.
      destruct (massRadius_bounds_aux V Rs) as [_ [IB1 IB2]]. nra. }
    split.
    + assert (DoorA.angle (doorA (updateState s params dt))
              = if Rge_dec (DoorA.angle (doorA s)) MAX_DOOR_ANGLE
                then MAX_DOOR_ANGLE
                else Rmin MAX_DOOR_ANGLE
                       (DoorA.angle (doorA s)
                        + DoorA.angularMomentum (doorA s)
                          / DoorA.momentOfInertia (doorA (updateState s params dt))
                          * dt)) as ->.
      { rewrite EA, EI, Er. reflexivity. }
      destruct (Rge_dec (DoorA.angle _) _); [apply Rmin_l|].
      apply Rle_min_compat_l. lra.
    + rewrite EB. destruct (Rge_dec (DoorB.angle _) _); [apply Rmin_l|].
      apply Rle_min_compat_l. rewrite (KB ltac:(lra)). lra.
Qed.

Lemma run_progress params dt :
  valid params -> 0 < dt ->
  forall n : nat,
    let s := advance_all (started params) params (repeat dt n) in
    reachable nonneg_delta params s
    /\ (closed s
        \/ (isRunning s = true
            /\ Rmin MAX_DOOR_ANGLE (INR n * least_gain params dt)
               <= DoorA.angle (doorA s)
            /\ Rmin MAX_DOOR_ANGLE (INR n * least_gain params dt)
               <= DoorB.angle (doorB s))).
Proof.
  intros V D. pose proof (least_gain_pos V D) as G.
  pose proof MAX_DOOR_ANGLE_pos as M.
  induction n as [|n [Rs IH]]; cbn zeta.
  - split; [apply reach_start, reach_init|]. right.
    cbn [repeat advance_all]. split; [reflexivity|].
    unfold started, handleStart, initializeState. fields.
    cbn [lit number]. rewrite Q2R_0. cbn [INR]. rewrite Rmult_0_l.
    rewrite Rmin_right by lra. lra.
  - rewrite advance_all_repeat_succ.
    set (s := advance_all (started params) params (repeat dt n)) in *.
    split; [apply reach_update; [exact Rs|unfold nonneg_delta; lra]|].
    destruct IH as [C|(Run & A & B)]; [left; now apply closed_update|].
    destruct (update_progress V Rs D Run) as [C|(Run' & A' & B')]; [now left|].
    right. split; [exact Run'|]. rewrite S_INR.
    split.
    + eapply Rle_trans; [|exact A'].
      apply Rmin_glb; [apply Rmin_l|].
      destruct (Rle_dec (INR n * least_gain params dt) MAX_DOOR_ANGLE).
      * rewrite Rmin_right in A by lra.
        eapply Rle_trans; [apply Rmin_r|]. lra.
      * rewrite Rmin_left in A by lra.
        eapply Rle_trans; [apply Rmin_l|]. lra.
    + eapply Rle_trans; [|exact B'].
      apply Rmin_glb; [apply Rmin_l|].
      destruct (Rle_dec (INR n * least_gain params dt) MAX_DOOR_ANGLE).
      * rewrite Rmin_right in B by lra.
        eapply Rle_trans; [apply Rmin_r|]. lra.
      * rewrite Rmin_left in B by lra.
        eapply Rle_trans; [apply Rmin_l|]. lra.
Qed.


End ExactKinematics.

(** ** The order on doubles and on reals *)

Module Binary64Order.
Import Binary64 Binary64Facts.

Lemma SFltb_irrefl (a : spec_float) : SFltb a a = false.
Proof.
  unfold SFltb. destruct (SFcompare a a) as [[ | | ]|] eqn:E; try reflexivity.
  now apply SFcompare_refl_not_Lt in E.
Qed.

Lemma SFltb_asym (a b : spec_float) : SFltb a b = true -> SFltb b a = false.
Proof.
  unfold SFltb. rewrite (SFcompare_antisym a b).
  destruct (SFcompare a b) as [[ | | ]|]; cbn; congruence.
Qed.

(** The sign of a zero plays no part in a comparison. *)
Lemma SFcompare_zero_l (s s' : bool) (b : spec_float) :
  SFcompare (S754_zero s) b = SFcompare (S754_zero s') b.
Proof. destruct b; reflexivity. Qed.

Lemma SFcompare_zero_r (s s' : bool) (a : spec_float) :
  SFcompare a (S754_zero s) = SFcompare a (S754_zero s').
Proof. destruct a; reflexivity. Qed.

Lemma max_cases (a b : spec_float) :
  (SFcompare a b = None /\ max a b = S754_nan)
  \/ (SFcompare a b = Some Gt /\ max a b = a)
  \/ (SFcompare a b = Some Lt /\ max a b = b)
  \/ (SFcompare a b = Some Eq
      /\ (max a b = b \/ exists sa sb s,
             a = S754_zero sa /\ b = S754_zero sb /\ max a b = S754_zero s)).
Proof.
  unfold max. destruct (SFcompare a b) as [[ | | ]|] eqn:E; auto.
  right; right; right. split; [reflexivity|].
  destruct a as [sa|sa| |sa ma ea]; auto.
  destruct b as [sb|sb| |sb mb eb]; auto.
  right. now exists sa, sb, (sa && sb).
Qed.

Lemma SFltb_max_l (a b : spec_float) : SFltb (max a b) a = false.
Proof.
  destruct (max_cases a b) as [[_ E]|[[_ E]|[[C E]|[C [E|(sa & sb & s & -> & -> & E)]]]]];
    rewrite E.
  - reflexivity.
  - apply SFltb_irrefl.
  - apply SFltb_asym. unfold SFltb. now rewrite C.
  - unfold SFltb. rewrite (SFcompare_antisym a b), C. reflexivity.
  - reflexivity.
Qed.

(** [max lo y] is not above [hi] when neither [lo] nor [y] is. *)
Lemma SFltb_max_below (lo hi y : spec_float) :
  SFltb hi lo = false -> SFltb hi y = false -> SFltb hi (max lo y) = false.
Proof.
  intros L Y.
  destruct (max_cases lo y) as [[_ E]|[[_ E]|[[_ E]|[_ [E|(sa & sb & s & -> & -> & E)]]]]];
    rewrite E; trivial.
  all: unfold SFltb in *;
    first [ now rewrite SFcompare_nan_r
          | now rewrite (SFcompare_zero_r s sa)
          | now rewrite (SFcompare_zero_r s sb) ].
Qed.

Lemma SFltb_min_l (hi x : spec_float) : SFltb hi (min hi x) = false.
Proof. apply SFltb_min. Qed.

#[global] Instance order : OrderLaws spec_float.
Proof.
  split.
  - exact SFltb_irrefl.
  - intros lo hi x L. cbn in *. split.
    + apply SFltb_max_l.
    + apply SFltb_max_below; [now apply SFltb_asym|apply SFltb_min_l].
Qed.
End Binary64Order.

Module ExactOrder.
Import Exact.
Local Open Scope R_scope.

#[global] Instance order : OrderLaws R.
Proof.
  split.
  - intros a. cbn. unfold ltb. destruct (Rlt_dec a a); [lra|reflexivity].
  - intros lo hi x L. cbn in *. unfold ltb in *.
    destruct (Rlt_dec lo hi); [|discriminate].
    pose proof (Rmax_l lo (Rmin hi x)). pose proof (Rmin_l hi x).
    assert (Rmax lo (Rmin hi x) <= hi) by (apply Rmax_lub; lra).
    split.
    + destruct (Rlt_dec _ lo); [lra|reflexivity].
    + destruct (Rlt_dec hi _); [lra|reflexivity].
Qed.
End ExactOrder.

(** ** The host page: what the history holds *)

Module IndexFacts.
Import Index.

Section Host.
Context {num : Type} `{HostNumber num} `{!OrderLaws num}.
Local Open Scope num_scope.

Lemma slice_last_length {A : Type} (n : nat) (l : list A) :
  (length (slice_last n l) <= n)%nat.
Proof. unfold slice_last. rewrite length_skipn. lia. Qed.

Lemma slice_last_In {A : Type} (n : nat) (l : list A) (x : A) :
  In x (slice_last n l) -> In x l.
Proof.
  unfold slice_last. intros I.
  rewrite <- (firstn_skipn (length l - n) l). apply in_or_app. now right.
Qed.

Lemma run_app (h : t num) (es es' : list (event num)) :
  run h (es ++ es') = run (run h es) es'.
Proof. unfold run. apply fold_left_app. Qed.

(** An invariant of [dispatch] that holds of [h] holds after any events. *)
Lemma run_invariant (P : t num -> Prop) :
  (forall h e, P h -> P (dispatch h e)) ->
  forall events h, P h -> P (run h events).
Proof.
  intros Step. induction events as [|e es IH]; intros h Ph; cbn; [exact Ph|].
  apply IH, Step, Ph.
Qed.

Lemma history_bounded_dispatch (h : t num) (e : event num) :
  history_bounded h -> history_bounded (dispatch h e).
Proof.
  unfold history_bounded. intros B. destruct e as [| | |p|ts]; cbn.
  - unfold startEffect. destruct (_ && _); cbn; exact B.
  - exact B.
  - lia.
  - lia.
  - unfold animate. destruct (negb _); cbn; [exact B|].
    destruct (_ <? _); [|exact B].
    rewrite length_app. cbn.
    pose proof (slice_last_length 200 (dataHistory h)). lia.
Qed.

(** X9. The history is never empty and never holds more than 201 points,
    whatever the user does and however long the simulation runs. *)
Theorem history_stays_bounded (events : list (event num)) :
  (1 <= length (dataHistory (run initial events)) <= 201)%nat.
Proof.
  apply (run_invariant history_bounded history_bounded_dispatch).
  unfold history_bounded. cbn. lia.
Qed.

Lemma updateState_inertia_B (s : SimulationState num) params dt :
  DoorB.momentOfInertia (doorB (updateState s params dt))
  = DoorB.momentOfInertia (doorB s).
Proof.
  unfold updateState. destruct (isRunning s); cbn; [|reflexivity].
  destruct (_ && _); reflexivity.
Qed.

Lemma chart_flat_dispatch (h : t num) (e : event num) :
  chart_flat h -> chart_flat (dispatch h e).
Proof.
  unfold chart_flat. intros F. destruct e as [| | |p|ts]; cbn.
  - unfold startEffect. destruct (_ && _); cbn; exact F.
  - exact F.
  - intros pt [<-|[]]. now split.
  - intros pt [<-|[]]. now split.
  - unfold animate. destruct (negb _); cbn; [exact F|].
    rewrite updateState_momentum_A, updateState_momentum_B, updateState_inertia_B.
    destruct (_ <? _); [|exact F].
    intros pt I. apply in_app_or in I. destruct I as [I|[<-|[]]].
    + apply F. now apply slice_last_In in I.
    + cbn. now rewrite updateState_momentum_A, updateState_momentum_B,
                       updateState_inertia_B.
Qed.

(** X10. The momentum curves of the chart are flat: whatever happened since the
    page was mounted, all points of the history carry one and the same
    angular momentum for door A, and one for door B, namely the ones the
    state stores now. *)
Theorem chart_momentum_flat (events : list (event num)) (pt : DataPoint.t num) :
  let h := run initial events in
  In pt (dataHistory h) ->
  DataPoint.doorA_L pt = DoorA.angularMomentum (doorA (state h))
  /\ DataPoint.doorB_L pt = DoorB.angularMomentum (doorB (state h))
  /\ DataPoint.doorB_I pt = DoorB.momentOfInertia (doorB (state h)).
Proof.
  intros h. subst h. revert pt.
  apply (run_invariant chart_flat chart_flat_dispatch).
  intros pt [<-|[]]. now split.
Qed.

Lemma stale_dispatch old newParams (h : t num) (e : event num) :
  in_session e = true -> stale old newParams h -> stale old newParams (dispatch h e).
Proof.
  intros S (P & A & B). destruct e as [| | |p|ts]; try discriminate;
    unfold stale, dispatch.
  - unfold startEffect. destruct (_ && _); cbn; now split.
  - cbn. now split.
  - unfold animate. destruct (negb _); cbn [params state]; [now split|].
    now rewrite updateState_momentum_A, updateState_momentum_B.
Qed.

Lemma stale_run old newParams (events : list (event num)) :
  forallb in_session events = true ->
  forall h, stale old newParams h -> stale old newParams (run h events).
Proof.
  induction events as [|e es IH]; intros S h St; cbn; [exact St|].
  cbn in S. apply andb_true_iff in S. destruct S as [Se Ses].
  apply IH; [exact Ses|]. now apply stale_dispatch.
Qed.

(** X11. A change of parameters resets the state from the parameters in force
    before the change: the simulation that follows runs on the new
    parameters with the angular momenta of the old ones, until a reset or a
    further change; a second change re-initialises from the first one. *)
Theorem params_change_resets_from_old_params
    (h : t num) (newParams : SimulationParams num) (events : list (event num)) :
  forallb in_session events = true ->
  let after := run (handleParamsChange h newParams) events in
  params after = newParams
  /\ DoorA.angularMomentum (doorA (state after))
     = DoorA.angularMomentum (doorA (initializeState (params h)))
  /\ DoorB.angularMomentum (doorB (state after))
     = DoorB.angularMomentum (doorB (initializeState (params h)))
  /\ state (handleReset after) = initializeState newParams
  /\ forall third,
       state (handleParamsChange after third) = initializeState newParams.
Proof.
  intros S after.
  assert (stale (params h) newParams after) as (P & A & B).
  { apply stale_run; [exact S|]. repeat split. }
  repeat split; trivial.
  - cbn. now rewrite P.
  - intros third. cbn. now rewrite P.
Qed.

(** X12. A frame on a simulation that is not running changes neither the state
    nor the history, and the frame in which the guard stops the simulation
    records no point: the stopped state never enters the history. *)
Theorem frame_without_progress_records_nothing (h : t num) (timestamp : num) :
  isRunning (state h) = false
  \/ ((DoorA.angle (doorA (state h)) >=? MAX_DOOR_ANGLE) = true
      /\ (DoorB.angle (doorB (state h)) >=? MAX_DOOR_ANGLE) = true) ->
  dataHistory (animate h timestamp) = dataHistory h
  /\ time (state (animate h timestamp)) = time (state h).
Proof.
  intros [Stop|[A B]]; unfold animate.
  - rewrite Stop. cbn. now split.
  - destruct (isRunning (state h)) eqn:Run; cbn; [|now split].
    unfold updateState. rewrite Run, A, B. cbn.
    rewrite lt_irrefl. now split.
Qed.
End Host.
End IndexFacts.

(** ** The host page over the reals: the frame clock, and the order of the
    recorded points *)

Module ExactIndex.
Import Exact Params ExactRun Kinematics ExactKinematics Index Session.
Local Open Scope R_scope.

Lemma Q2R_20 : Q2R 20 = 20.
Proof. unfold Q2R. cbn. lra. Qed.

Lemma Q2R_1000 : Q2R 1000 = 1000.
Proof. unfold Q2R. cbn. lra. Qed.

(** The elapsed time a frame computes is never negative when the clock does
    not go back, and it is 0 on the first frame after [lastTimeRef] was
    cleared. *)
Lemma frame_delta (last timestamp : R) :
  0 <= last <= timestamp ->
  0 <= (timestamp - (if eqb last 0 then timestamp else last)) / 1000
  /\ (last = 0 ->
      (timestamp - (if eqb last 0 then timestamp else last)) / 1000 = 0).
Proof.
  intros L. unfold eqb. destruct (Req_dec_T last 0) as [E|N].
  - split; [|intros _]; lra.
  - split; [|intros E; contradiction]. lra.
Qed.

(** A frame, with the numbers read over the reals. *)
Lemma animate_exact (h : t R) (timestamp : R) :
  0 <= lastTimeRef h <= timestamp ->
  exists dt, 0 <= dt
    /\ (lastTimeRef h = 0 -> dt = 0)
    /\ lastTimeRef (animate h timestamp) = timestamp
    /\ params (animate h timestamp) = params h
    /\ ((isRunning (state h) = false
         /\ state (animate h timestamp) = state h
         /\ dataHistory (animate h timestamp) = dataHistory h)
        \/ (isRunning (state h) = true
            /\ state (animate h timestamp) = updateState (state h) (params h) dt
            /\ dataHistory (animate h timestamp)
               = if (bucket (time (state h))
                     <? bucket (time (updateState (state h) (params h) dt)))%Z
                 then slice_last 200 (dataHistory h)
                      ++ [pointOf (updateState (state h) (params h) dt)]
                 else dataHistory h)).
Proof.
  intros L.
  exists ((timestamp - (if eqb (lastTimeRef h) 0 then timestamp else lastTimeRef h))
          / 1000).
  destruct (frame_delta L) as [D Z].
  split; [exact D|]. split; [exact Z|].
  unfold animate. cbn [strict_eq sub div lit number]. rewrite Q2R_0, Q2R_1000.
  destruct (isRunning (state h)) eqn:Run; cbn [negb params state dataHistory lastTimeRef].
  - repeat split. right. repeat split.
    cbn [lt mul lit number Math_floor ExactHost.host]. rewrite Q2R_20.
    unfold bucket, ltb.
    set (a := Zfloor (time (state h) * 20)).
    set (b := Zfloor (time (updateState _ _ _) * 20)).
    destruct (Rlt_dec (IZR a) (IZR b)) as [Lt|Ge], (Z.ltb_spec a b); trivial.
    + apply lt_IZR in Lt. lia.
    + exfalso. apply Ge. now apply IZR_lt.
  - repeat split. now left.
Qed.

Lemma updateState_time (s : SimulationState R) params dt :
  0 <= dt -> time s <= time (updateState s params dt).
Proof.
  intros D. destruct (updateState_cases s params dt)
    as [[_ E]|[(_ & _ & _ & Et & _)|(_ & _ & Et & _)]].
  - rewrite E. lra.
  - rewrite Et. lra.
  - rewrite Et. lra.
Qed.

(** A call that changes the time stores a positive angular velocity for
    door A. *)
Lemma updateState_moving params (s : SimulationState R) dt :
  valid params -> reachable nonneg_delta params s -> 0 <= dt ->
  time (updateState s params dt) <> time s ->
  0 < DoorA.angularVelocity (doorA (updateState s params dt)).
Proof.
  intros V Rs D T.
  destruct (kinematics_reachable V Rs) as [_ KL _ KO _].
  destruct (updateState_cases s params dt)
    as [[_ E]|[(_ & _ & _ & Et & _)|(_ & Bel & _)]]; try congruence.
  destruct (updateState_doorA s params dt)
    as [[_ E]|[(_ & GA & GB & _)|(_ & _ & _ & EI & EV)]];
    [now rewrite E in T|lra|].
  rewrite EV. destruct (Rge_dec (DoorA.angle _) _); [lra|].
  apply Rdiv_lt_0_compat.
  - rewrite KL. pose proof (inertiaA_pos (initialRadius params) V).
    pose proof (initialAngularVelocity_pos V). nra.
  - rewrite EI. now apply inertiaA_pos.
Qed.

Lemma StronglySorted_skipn {A : Type} (Rel : A -> A -> Prop) (l : list A) :
  StronglySorted Rel l -> forall n, StronglySorted Rel (skipn n l).
Proof.
  induction 1 as [|a l S IH F]; intros [|n]; cbn; try constructor; trivial.
Qed.

Lemma StronglySorted_snoc {A : Type} (Rel : A -> A -> Prop) (l : list A) (x : A) :
  StronglySorted Rel l -> Forall (fun a => Rel a x) l -> StronglySorted Rel (l ++ [x]).
Proof.
  induction 1 as [|a l S IH F]; intros Fx; cbn.
  - repeat constructor.
  - inversion Fx as [|? ? Ra Fl]; subst. constructor; [now apply IH|].
    apply Forall_app. split; [exact F|]. now constructor.
Qed.

Lemma Forall_slice_last {A : Type} (P : A -> Prop) (n : nat) (l : list A) :
  Forall P l -> Forall P (slice_last n l).
Proof.
  intros F. apply Forall_forall. intros x I.
  apply IndexFacts.slice_last_In in I. revert x I. now apply Forall_forall.
Qed.

Lemma inv_weaken p prev prev' (h : t R) :
  prev <= prev' -> inv p prev h -> inv p prev' h.
Proof. intros L [P S C M So Pa]. split; trivial. lra. Qed.

Lemma inv_reset p prev (h : t R) :
  valid p -> params h = p -> 0 <= prev -> inv p prev (handleReset h).
Proof.
  intros V P Pr. pose proof (initialAngularVelocity_pos V).
  assert (bucket 0 = 0%Z) as B0.
  { unfold bucket. apply Zfloor_eq. cbn. lra. }
  split; cbn [handleReset params state dataHistory lastTimeRef]; rewrite ?P.
  - reflexivity.
  - apply reach_init.
  - cbn. rewrite Q2R_0. lra.
  - repeat constructor. cbn. exact H.
  - repeat constructor.
  - repeat constructor. cbn. rewrite Q2R_0, B0. lia.
Qed.

Lemma inv_frame p prev (h : t R) timestamp :
  valid p -> prev <= timestamp -> inv p prev h -> inv p timestamp (animate h timestamp).
Proof.
  intros V L [P S C M So Pa].
  destruct (@animate_exact h timestamp) as (dt & D & _ & EL & EP & Cases); [lra|].
  destruct Cases as [(_ & ES & EH)|(_ & ES & EH)].
  - split; rewrite ?EL, ?EP, ?ES, ?EH; trivial. lra.
  - rewrite P in *.
    assert (reachable nonneg_delta p (updateState (state h) p dt)) as S'
        by (now apply reach_update).
    pose proof (updateState_time (state h) p D) as T.
    assert (bucket (time (state h)) <= bucket (time (updateState (state h) p dt)))%Z
      as BT by (unfold bucket; apply Zfloor_le; lra).
    split; rewrite ?EL, ?EP, ?ES, ?EH; trivial; try lra.
    + destruct (Z.ltb_spec (bucket (time (state h)))
                  (bucket (time (updateState (state h) p dt)))) as [Lt|_];
        [|exact M].
      apply Forall_app. split; [now apply Forall_slice_last|].
      constructor; [|constructor]. cbn.
      apply updateState_moving; trivial.
      intros E. rewrite E in Lt. lia.
    + destruct (Z.ltb_spec (bucket (time (state h)))
                  (bucket (time (updateState (state h) p dt)))) as [Lt|_];
        [|exact So].
      apply StronglySorted_snoc; [now apply StronglySorted_skipn|].
      apply Forall_slice_last. cbn.
      revert Pa. apply Forall_impl. intros pt Hp. lia.
    + destruct (Z.ltb_spec (bucket (time (state h)))
                  (bucket (time (updateState (state h) p dt)))) as [Lt|_].
      * apply Forall_app. split.
        -- apply Forall_slice_last. revert Pa. apply Forall_impl. intros pt Hp. lia.
        -- constructor; [|constructor]. cbn. lia.
      * revert Pa. apply Forall_impl. intros pt Hp. lia.
Qed.

Lemma inv_dispatch p prev (h : t R) (e : event R) :
  valid p -> keeps_params e = true -> inv p prev h ->
  match e with
  | Frame timestamp => prev <= timestamp -> inv p timestamp (dispatch h e)
  | _ => inv p prev (dispatch h e)
  end.
Proof.
  intros V K I. destruct e as [| | |q|ts]; try discriminate; cbn [dispatch].
  - destruct I as [P S C M So Pa].
    unfold startEffect. destruct (_ && _); split;
      cbn [handleStart params state dataHistory lastTimeRef]; trivial;
      try (now apply reach_start).
    cbn. rewrite Q2R_0. lra.
  - destruct I as [P S C M So Pa]. split;
      cbn [handlePause params state dataHistory lastTimeRef]; trivial.
    now apply reach_pause.
  - destruct I as [P S C M So Pa]. apply inv_reset; trivial. lra.
  - intros L. now apply inv_frame with (prev := prev).
Qed.

Lemma inv_run p (events : list (event R)) :
  valid p -> forallb keeps_params events = true ->
  forall prev h, well_timed prev events -> inv p prev h ->
    inv p (last_frame prev events) (run h events).
Proof.
  intros V. induction events as [|e es IH]; intros K prev h W I.
  - exact I.
  - change (inv p (last_frame prev (e :: es)) (run (dispatch h e) es)).
    cbn in K. apply andb_true_iff in K. destruct K as [Ke Kes].
    pose proof (inv_dispatch e V Ke I) as Step.
    destruct e as [| | |q|ts]; cbn in W |- *;
      try exact (IH Kes prev _ W Step); try discriminate.
    destruct W as [L W]. exact (IH Kes ts _ W (Step L)).
Qed.

Lemma well_timed_app prev (es es' : list (event R)) :
  well_timed prev (es ++ es') ->
  well_timed prev es /\ well_timed (last_frame prev es) es'.
Proof.
  revert prev. induction es as [|e es IH]; intros prev W; cbn in *.
  - now split.
  - destruct e as [| | |q|ts]; try now apply IH.
    destruct W as [L W]. destruct (IH _ W). now repeat split.
Qed.

Lemma in_session_keeps_params (es : list (event R)) :
  forallb in_session es = true -> forallb keeps_params es = true.
Proof.
  induction es as [|e es IH]; cbn; [reflexivity|].
  intros S. apply andb_true_iff in S. destruct S as [Se Ses].
  rewrite (IH Ses). now destruct e.
Qed.

Lemma StronglySorted_impl {A : Type} (P Q : A -> A -> Prop) (l : list A) :
  (forall a b, P a b -> Q a b) -> StronglySorted P l -> StronglySorted Q l.
Proof.
  intros PQ. induction 1 as [|a l S IH F]; constructor; trivial.
  revert F. apply Forall_impl. intros b. apply PQ.
Qed.

Lemma bucket_lt_time (t u : R) : (bucket t < bucket u)%Z -> t < u.
Proof.
  intros B. destruct (Rlt_le_dec t u) as [|Le]; [assumption|].
  assert (bucket u <= bucket t)%Z by (unfold bucket; apply Zfloor_le; lra). lia.
Qed.

Lemma inv_after_reset (h0 : t R) (events : list (event R)) :
  valid (params h0) ->
  forallb keeps_params events = true ->
  well_timed 0 events ->
  inv (params h0) (last_frame 0 events) (run (handleReset h0) events).
Proof.
  intros V K W. apply inv_run; trivial. apply inv_reset; trivial. lra.
Qed.



Lemma session_monotone p (events : list (event R)) :
  valid p -> forallb in_session events = true ->
  forall prev h, well_timed prev events -> inv p prev h ->
    time (state h) <= time (state (run h events))
    /\ DoorA.angle (doorA (state h)) <= DoorA.angle (doorA (state (run h events)))
    /\ DoorB.angle (doorB (state h)) <= DoorB.angle (doorB (state (run h events)))
    /\ DoorA.massRadius (doorA (state h))
       <= DoorA.massRadius (doorA (state (run h events))).
Proof.
  intros V. induction events as [|e es IH]; intros K prev h W I.
  - cbn. lra.
  - change (run h (e :: es)) with (run (dispatch h e) es).
    cbn in K. apply andb_true_iff in K. destruct K as [Ke Kes].
    assert (keeps_params e = true) as Kp by now destruct e.
    pose proof (inv_dispatch e V Kp I) as Step.
    assert (time (state h) <= time (state (dispatch h e))
            /\ DoorA.angle (doorA (state h))
               <= DoorA.angle (doorA (state (dispatch h e)))
            /\ DoorB.angle (doorB (state h))
               <= DoorB.angle (doorB (state (dispatch h e)))
            /\ DoorA.massRadius (doorA (state h))
               <= DoorA.massRadius (doorA (state (dispatch h e)))) as One.
    { destruct e as [| | |q|ts]; try discriminate; cbn [dispatch].
      - unfold startEffect. destruct (_ && _); cbn; lra.
      - cbn. lra.
      - destruct I as [P S C _ _ _]. cbn in W. destruct W as [L _].
        destruct (@animate_exact h ts) as (dt & D & _ & _ & _ & Cases); [lra|].
        destruct Cases as [(_ & ES & _)|(_ & ES & _)]; rewrite ES; [lra|].
        rewrite P.
        destruct (step_monotone V (inv_reachable V S) D) as (A & B & Rd).
        pose proof (updateState_time (state h) p D). lra. }
    destruct e as [| | |q|ts]; try discriminate; cbn in W.
    + destruct (IH Kes prev _ W Step). lra.
    + destruct (IH Kes prev _ W Step). lra.
    + destruct W as [L W]. destruct (IH Kes ts _ W (Step L)). lra.
Qed.






End ExactIndex.

(** ** The sliders *)

Module ParameterControlsFacts.
Import ParameterControls.

Section Controls.
Context {num : Type} `{Number num}.

Lemma key_eqb_eq (a b : key) : key_eqb a b = true <-> a = b.
Proof. destruct a, b; cbn; split; congruence. Qed.

(** [updateParam] writes the one field it is given the key of, leaves the
    six others as they are, and writing a field's own value back changes
    nothing. *)
Lemma updateParam_writes_one_field
    (params : SimulationParams num) (k : key) (value : num) :
  value_of (updateParam params k value) k = value
  /\ (forall k', k' <> k ->
        value_of (updateParam params k value) k' = value_of params k')
  /\ updateParam params k (value_of params k) = params
  /\ forall value',
       updateParam (updateParam params k value) k value'
       = updateParam params k value'.
Proof.
  repeat split.
  - now destruct k.
  - intros k' N. destruct k, k'; try reflexivity; contradiction.
  - destruct params, k; reflexivity.
  - intros value'. destruct k; reflexivity.
Qed.
End Controls.

Import Params.
Local Open Scope R_scope.

Lemma within_sliders_bounds (p : SimulationParams R) :
  within_sliders p <->
  (10 <= doorMass p <= 60 /\ 6 / 10 <= doorWidth p <= 14 / 10
   /\ 1 <= slidingMass p <= 15 /\ 5 / 100 <= initialRadius p <= 3 / 10
   /\ 4 / 10 <= finalRadius p <= 1 /\ 5 / 10 <= initialAngularVelocity p <= 4
   /\ 5 / 10 <= slideDuration p <= 3).
Proof.
  unfold within_sliders, controls.
  repeat rewrite Forall_cons_iff. rewrite Forall_nil_iff.
  cbn [control_key min max value_of lit Exact.number]. unfold Q2R. cbn.
  intuition lra.
Qed.

(** X17. Whatever the sliders are set to, the parameters are within the
    documented ranges (in particular the final radius is above the initial
    one), and moving one slider within its range keeps them so. *)
Theorem sliders_keep_params_valid
    (p : SimulationParams R) (c : control R) (value : R) :
  within_sliders p ->
  In c controls ->
  min c <= value <= max c ->
  valid p
  /\ within_sliders (updateParam p (control_key c) value)
  /\ valid (updateParam p (control_key c) value).
Proof.
  intros W I V.
  assert (forall q, within_sliders q -> valid q) as Valid.
  { intros q Wq. apply within_sliders_bounds in Wq. split; lra. }
  assert (within_sliders (updateParam p (control_key c) value)) as W'.
  { apply within_sliders_bounds in W. apply within_sliders_bounds.
    unfold controls in I. cbn in I.
    repeat (destruct I as [<-|I]; [revert V;
      cbn [control_key min max updateParam key_eqb doorMass doorWidth slidingMass
           initialRadius finalRadius slideDuration initialAngularVelocity
           lit Exact.number];
      unfold Q2R; cbn; intros V; intuition lra|]).
    contradiction. }
  auto.
Qed.

Lemma defaultParams_within_sliders : within_sliders defaultParams.
Proof.
  apply within_sliders_bounds. cbn. unfold Q2R. cbn. intuition lra.
Qed.

Lemma sliders_keep_params_valid_witness :
  valid (defaultParams (num := R))
  /\ within_sliders (updateParam defaultParams doorMass_key 45)
  /\ valid (updateParam (defaultParams (num := R)) doorMass_key 45).
Proof.
  apply (sliders_keep_params_valid (p := defaultParams)
           (c := {| control_key := doorMass_key; min := lit 10; max := lit 60;
                    step := lit 1 |}) (value := 45)).
  - exact defaultParams_within_sliders.
  - left. reflexivity.
  - cbn. unfold Q2R. cbn. lra.
Defined.
End ParameterControlsFacts.

(** ** The orbit controls *)

Module ThreeSceneFacts.
Import ThreeScene.

Module Binary64Orbit.
#[global] Instance laws : OrbitLaws spec_float.
Proof. split; vm_compute; repeat split. Qed.
End Binary64Orbit.

Module ExactOrbit.
Import Exact.
Local Open Scope R_scope.
#[global] Instance laws : OrbitLaws R.
Proof.
  split; unfold in_view, within; cbn; unfold ltb, Q2R; cbn;
    repeat split;
    repeat match goal with
           | |- context [Rlt_dec ?a ?b] => destruct (Rlt_dec a b)
           end; try reflexivity; try discriminate; exfalso; lra.
Qed.
End ExactOrbit.

Section Orbit.
Context {num : Type} `{Number num} `{!OrderLaws num} `{!OrbitLaws num}.

Lemma in_view_dispatch (o : orbit num) (e : event num) :
  in_view o -> in_view (dispatch o e).
Proof.
  intros [D A]. destruct e as [x y|x y| | |d]; cbn [dispatch].
  - now split.
  - unfold handleMouseMove. destruct (negb (isDragging o)); [now split|].
    split; [exact D|]. cbn [cameraAngleY].
    apply clamp_within, elevation_bounds.
  - now split.
  - now split.
  - split; [|exact A]. cbn [handleWheel cameraDistance].
    apply clamp_within, distance_bounds.
Qed.

(** X18. Whatever the mouse does, the camera stays in view: by the
    comparisons of the source, its distance is never below 3 nor above 15,
    and its elevation never below 0.1 nor above 1.4. *)
Theorem camera_stays_in_view (events : list (event num)) :
  let o := fold_left dispatch events initial in
  (lt (cameraDistance o) (lit 3) = false /\ lt (lit 15) (cameraDistance o) = false)
  /\ (lt (cameraAngleY o) (lit 0.1) = false
     /\ lt (lit 1.4) (cameraAngleY o) = false).
Proof.
  cbn zeta.
  assert (forall es o, in_view o -> in_view (fold_left dispatch es o)) as Run.
  { induction es as [|e es IH]; intros o I; cbn; [exact I|].
    apply IH. now apply in_view_dispatch. }
  exact (Run events initial initial_in_view).
Qed.

End Orbit.
End ThreeSceneFacts.

(** ** The readouts *)

Module DataDisplayFacts.
Import Exact Params ExactRun DataDisplay.
Local Open Scope R_scope.

Lemma angles_nonneg (params : SimulationParams R) (s : SimulationState R) :
  valid params ->
  reachable nonneg_delta params s ->
  0 <= DoorA.angle (doorA s) /\ 0 <= DoorB.angle (doorB s).
Proof.
  intros V. induction 1 as [|s _ IH|s _ IH|s dt Rs IH D].
  - cbn. rewrite Q2R_0. lra.
  - exact IH.
  - exact IH.
  - destruct (step_monotone V (inv_reachable V Rs) D) as (A & B & _). lra.
Qed.

Lemma remainder_small (x y : R) : 0 <= x < y -> remainder x y = x.
Proof.
  intros [X0 Xy]. unfold remainder.
  assert (0 <= x / y < 1) as [Q0 Q1].
  { split.
    - apply Rmult_le_pos; [exact X0|]. left. apply Rinv_0_lt_compat. lra.
    - apply (Rmult_lt_reg_r y); [lra|].
      unfold Rdiv. rewrite Rmult_assoc, Rinv_l by lra. lra. }
  destruct (Rle_dec 0 (x / y)) as [_|N]; [|contradiction].
  rewrite (Zfloor_eq 0 (x / y)) by (cbn; lra). cbn. lra.
Qed.


End DataDisplayFacts.

(** ** The same on doubles: the default session *)

Module Binary64Session.
Import Binary64 Sample.
Local Open Scope num_scope.

(** The mounted page after Start and frames at 16 ms and 116 ms. *)
Definition two_frames : list (Index.event spec_float) :=
  [Index.Start; Index.Frame #16; Index.Frame #116].

(** The page in the state the default run is in when the guard fires. *)
Definition at_guard : Index.t spec_float :=
  {| Index.params := defaultParams;
     Index.state := default_run 10;
     Index.dataHistory := [Index.firstPoint defaultParams];
     Index.lastTimeRef := #1000 |}.

Lemma pause_then_start_is_transparent_witness :
  updateState (handleStart (handlePause (default_run 3)))
    defaultParams tenth
  = updateState (default_run 3) defaultParams tenth.
Proof.
  apply (pause_then_start_is_transparent (default_run 3) defaultParams tenth).
  reflexivity.
Defined.

Lemma start_after_completion_is_absorbed_witness :
  updateState (handleStart (default_run 11)) defaultParams tenth
  = default_run 11.
Proof.
  apply (start_after_completion_is_absorbed (s := default_run 11)).
  vm_compute. repeat split.
Defined.

Lemma phase_never_regresses_witness :
  let returned :=
    after_calls (started defaultParams) defaultParams (repeat tenth 12) in
  (forall n : nat, phase (returned n) <> idle)
  /\ (forall k n : nat,
        (k <= n <= length (repeat tenth 12))%nat ->
        phase (returned k) = phase2 -> phase (returned n) = phase2).
Proof.
  exact (phase_never_regresses defaultParams (repeat tenth 12)).
Defined.

Lemma doorB_inertia_constant_witness :
  let s := updateState (started defaultParams) defaultParams tenth in
  DoorB.momentOfInertia (doorB s)
  = calculateDoorMomentOfInertia (doorMass defaultParams) (doorWidth defaultParams)
  /\ DoorB.angularMomentum (doorB s)
     = DoorB.momentOfInertia (doorB s) * initialAngularVelocity defaultParams.
Proof.
  apply (doorB_inertia_constant (ok := any_delta) (params := defaultParams)).
  apply reach_update; [|exact I]. apply reach_start, reach_init.
Defined.

Lemma history_stays_bounded_witness :
  (1 <= length (Index.dataHistory (Index.run Index.initial two_frames))
   <= 201)%nat.
Proof. exact (IndexFacts.history_stays_bounded two_frames). Defined.

Lemma chart_momentum_flat_witness :
  let h := Index.run Index.initial two_frames in
  DataPoint.doorA_L (Index.firstPoint defaultParams)
  = DoorA.angularMomentum (doorA (Index.state h))
  /\ DataPoint.doorB_L (Index.firstPoint defaultParams)
     = DoorB.angularMomentum (doorB (Index.state h))
  /\ DataPoint.doorB_I (Index.firstPoint defaultParams)
     = DoorB.momentOfInertia (doorB (Index.state h)).
Proof.
  apply (IndexFacts.chart_momentum_flat two_frames
           (Index.firstPoint defaultParams)).
  vm_compute. left. reflexivity.
Defined.

Lemma params_change_resets_from_old_params_witness :
  let after :=
    Index.run (Index.handleParamsChange Index.initial params_1_3) two_frames in
  Index.params after = params_1_3
  /\ DoorA.angularMomentum (doorA (Index.state after))
     = DoorA.angularMomentum (doorA (initializeState defaultParams))
  /\ DoorB.angularMomentum (doorB (Index.state after))
     = DoorB.angularMomentum (doorB (initializeState defaultParams))
  /\ Index.state (Index.handleReset after) = initializeState params_1_3
  /\ forall third,
       Index.state (Index.handleParamsChange after third)
       = initializeState params_1_3.
Proof.
  apply (IndexFacts.params_change_resets_from_old_params Index.initial
           params_1_3 two_frames).
  reflexivity.
Defined.

Lemma frame_without_progress_records_nothing_witness :
  Index.dataHistory (Index.animate at_guard #1100) = Index.dataHistory at_guard
  /\ time (Index.state (Index.animate at_guard #1100))
     = time (Index.state at_guard).
Proof.
  apply (IndexFacts.frame_without_progress_records_nothing at_guard #1100).
  right. split; vm_compute; reflexivity.
Defined.

Lemma camera_stays_in_view_witness :
  let o :=
    fold_left ThreeScene.dispatch
      [ThreeScene.mousedown #0 #0; ThreeScene.mousemove #10 #500;
       ThreeScene.wheel #5000; ThreeScene.mouseup]
      (ThreeScene.initial (num := spec_float)) in
  ((ThreeScene.cameraDistance o <? #3) = false
   /\ (#15 <? ThreeScene.cameraDistance o) = false)
  /\ ((ThreeScene.cameraAngleY o <? #0.1) = false
      /\ (#1.4 <? ThreeScene.cameraAngleY o) = false).
Proof.
  exact (ThreeSceneFacts.camera_stays_in_view (num := spec_float)
           [ThreeScene.mousedown #0 #0; ThreeScene.mousemove #10 #500;
            ThreeScene.wheel #5000; ThreeScene.mouseup]).
Defined.

(** What the session of the witnesses looks like: the frame at 116 ms records
    the second point, and after the change to an initial angular velocity of
    1.3 the doors still carry the momenta of 2.0. *)
Example two_frames_history :
  length (Index.dataHistory (Index.run Index.initial two_frames)) = 2%nat
  /\ time (Index.state (Index.run Index.initial two_frames)) = tenth.
Proof. vm_compute. split; reflexivity. Qed.

Example stale_momentum_differs :
  let after :=
    Index.run (Index.handleParamsChange Index.initial params_1_3) two_frames in
  DoorA.angularMomentum (doorA (Index.state after))
  <> DoorA.angularMomentum (doorA (initializeState params_1_3))
  /\ DoorB.angularVelocity (doorB (Index.state after)) = #2.0.
Proof. vm_compute. split; [discriminate|reflexivity]. Qed.

(** After a long drag and a long turn of the wheel the camera sits on both
    of its upper bounds. *)
Example camera_at_upper_bounds :
  let o :=
    fold_left ThreeScene.dispatch
      [ThreeScene.mousedown #0 #0; ThreeScene.mousemove #10 #500;
       ThreeScene.wheel #5000; ThreeScene.mouseup]
      (ThreeScene.initial (num := spec_float)) in
  ThreeScene.cameraDistance o = #15 /\ ThreeScene.cameraAngleY o = #1.4.
Proof. vm_compute. split; reflexivity. Qed.
End Binary64Session.
